(** * Gmail Auto-Label Sender: a shallow embedding of the automation workflow

    Sources embedded: [src/src/utils.ts] (validateEmail, extractEmailAddress,
    findInputByLabel, extractSenderFromElement) and [src/src/index.ts]
    (handleAutoLabelClick, navigateToFiltersSettings, createOrUpdateFilter,
    findFilterByMetadata, createNewFilter, updateExistingFilter,
    waitForLabels).

    Strings are [list ascii] internally; JavaScript strings of the code are
    modelled by their ASCII content. *)

From Stdlib Require Import String Ascii List Bool ZArith Lia.
Import ListNotations.
Open Scope list_scope.
Set Warnings "-register-all".

(** ** Characters and the string builtins the code uses *)

Definition chars := list ascii.

Definition ch (n : nat) : ascii := ascii_of_nat n.

Definition eqa (a b : ascii) : bool := Ascii.eqb a b.

(** The regular-expression class [\s] restricted to ASCII: space, TAB, LF,
    VT, FF, CR.  [String.prototype.trim] removes the same characters. *)
Definition is_space (c : ascii) : bool :=
  let n := nat_of_ascii c in (n =? 32)%nat || ((9 <=? n)%nat && (n <=? 13)%nat).

(** The regular-expression class [\w]: [A-Za-z0-9_]. *)
Definition is_word (c : ascii) : bool :=
  let n := nat_of_ascii c in
  ((48 <=? n) && (n <=? 57)) || ((65 <=? n) && (n <=? 90))
  || ((97 <=? n) && (n <=? 122)) || (n =? 95).

Definition c_at := ch 64.    (* '@' *)
Definition c_dot := ch 46.   (* '.' *)
Definition c_lt := ch 60.    (* '<' *)
Definition c_gt := ch 62.    (* '>' *)
Definition c_dash := ch 45.  (* '-' *)

(** [String.prototype.startsWith] / prefix test on character lists. *)
Fixpoint prefixb (p s : chars) : bool :=
  match p, s with
  | [], _ => true
  | a :: p', b :: s' => eqa a b && prefixb p' s'
  | _ :: _, [] => false
  end.

(** [String.prototype.includes]: some suffix of [s] starts with [p]. *)
Fixpoint includesl (s p : chars) : bool :=
  prefixb p s || match s with [] => false | _ :: s' => includesl s' p end.

Definition includes (s p : string) : bool :=
  includesl (list_ascii_of_string s) (list_ascii_of_string p).

Fixpoint drop_spaces (s : chars) : chars :=
  match s with
  | c :: s' => if is_space c then drop_spaces s' else s
  | [] => []
  end.

(** [String.prototype.trim]. *)
Definition triml (s : chars) : chars := rev (drop_spaces (rev (drop_spaces s))).

Definition trim (s : string) : string :=
  string_of_list_ascii (triml (list_ascii_of_string s)).

(** [String.prototype.toLowerCase] on ASCII. *)
Definition lower (c : ascii) : ascii :=
  let n := nat_of_ascii c in
  if (65 <=? n) && (n <=? 90) then ascii_of_nat (n + 32) else c.

Definition to_lower (s : string) : string :=
  string_of_list_ascii (map lower (list_ascii_of_string s)).

(** ** validateEmail  (utils.ts, lines 111-114)

    [/^[^\s@]+@[^\s@]+\.[^\s@]+$/.test(email)].  A character of the class
    [[^\s@]] is written [ns]; since ['.'] is such a character, the regexp
    accepts exactly the strings [A @ B] where [A] is a non-empty run of [ns]
    characters, [B] is a run of [ns] characters, and [B] has a ['.'] with at
    least one character on each side ([B = B1 . B2], [B1], [B2] non-empty). *)
Definition ns (c : ascii) : bool := negb (is_space c) && negb (eqa c c_at).

(** [[^\s@]+\.[^\s@]+$] on the text after the ['@']: a dot strictly inside
    a run of [ns] characters. *)
Definition domain_ok (b : chars) : bool :=
  forallb ns b &&
  match b with
  | [] => false
  | _ :: b' => existsb (fun c => eqa c c_dot) (removelast b')
  end.

(** Split at the first ['@']: the text before it and the text after it. *)
Fixpoint split_at_sign (s : chars) : option (chars * chars) :=
  match s with
  | [] => None
  | c :: s' =>
      if eqa c c_at then Some ([], s')
      else match split_at_sign s' with
           | Some (l, r) => Some (c :: l, r)
           | None => None
           end
  end.

(** The local part [^[^\s@]+] cannot contain an ['@'], so the ['@'] of the
    regexp is the first one of the string. *)
Definition validate_chars (s : chars) : bool :=
  match split_at_sign s with
  | None => false
  | Some (l, b) =>
      match l with [] => false | _ => true end && forallb ns l && domain_ok b
  end.

Definition validateEmail (email : string) : bool :=
  validate_chars (list_ascii_of_string email).

(** ** extractEmailAddress  (utils.ts, lines 119-127) *)

Fixpoint take_while (p : ascii -> bool) (l : chars) : chars :=
  match l with
  | c :: l' => if p c then c :: take_while p l' else []
  | [] => []
  end.

Fixpoint drop_while (p : ascii -> bool) (l : chars) : chars :=
  match l with
  | c :: l' => if p c then drop_while p l' else l
  | [] => []
  end.

Definition not_gt (c : ascii) : bool := negb (eqa c c_gt).

(** [/<([^>]+)>/]: the leftmost ['<'] followed by a non-empty run of
    non-['>'] characters and a ['>']; the group is that run.  The greedy
    [[^>]+] stops at the first ['>'] or at the end of the text; a shorter run
    would be followed by a non-['>'] character, so backtracking cannot
    succeed where the greedy run fails, and the search moves on. *)
Fixpoint angle_match (s : chars) : option chars :=
  match s with
  | [] => None
  | c :: s' =>
      if eqa c c_lt then
        match take_while not_gt s', drop_while not_gt s' with
        | (_ :: _) as body, _ :: _ => Some body
        | _, _ => angle_match s'
        end
      else angle_match s'
  end.

(** The class [[\w.-]]. *)
Definition is_wdd (c : ascii) : bool := is_word c || eqa c c_dot || eqa c c_dash.

(** [[\w.-]+\.\w+] after the ['@']: the greedy [[\w.-]+] backtracks from
    the longest candidate, so the dot chosen is the LAST dot of the run [l]
    that has text before it and a [\w] character after it.  Returns the text
    before that dot and the text after it. *)
Fixpoint dot_split (pre l : chars) : option (chars * chars) :=
  match l with
  | c :: ((d :: _) as rest) =>
      match dot_split (pre ++ [c]) rest with
      | Some r => Some r
      | None =>
          if eqa c c_dot && is_word d && negb (List.forallb (fun _ => false) pre)
          then Some (pre, rest) else None
      end
  | _ => None
  end.

(** [/[\w.-]+@[\w.-]+\.\w+/] anchored at the start of [s].  The first
    [[\w.-]+] cannot give back characters usefully: every shorter run is
    followed by a [[\w.-]] character, which is not ['@']. *)
Definition bare_match_at (s : chars) : option chars :=
  match take_while is_wdd s, drop_while is_wdd s with
  | (_ :: _) as loc, a :: r2 =>
      if eqa a c_at then
        match dot_split [] (take_while is_wdd r2) with
        | Some (p, t) => Some (loc ++ c_at :: p ++ c_dot :: take_while is_word t)
        | None => None
        end
      else None
  | _, _ => None
  end.

(** [String.prototype.match] without the [g] flag: the leftmost match. *)
Fixpoint bare_match (s : chars) : option chars :=
  match bare_match_at s with
  | Some m => Some m
  | None => match s with [] => None | _ :: s' => bare_match s' end
  end.

Definition extract_chars (s : chars) : chars :=
  match angle_match s with
  | Some body => body
  | None =>
      match bare_match s with
      | Some m => m
      | None => triml s
      end
  end.

Definition extractEmailAddress (emailString : string) : string :=
  string_of_list_ascii (extract_chars (list_ascii_of_string emailString)).

(** ** The message view: element trees  (utils.ts, lines 167-196)

    An element carries its [email] attribute (if any), its class list and
    its children; text nodes carry their data.  [textContent] is the
    concatenation of the text of the subtree in document order. *)
Inductive node : Type :=
| NText (data : string)
| NElem (email : option string) (classes : list string) (children : list node).

Fixpoint textContent (n : node) : string :=
  match n with
  | NText d => d
  | NElem _ _ ch =>
      (fix go (l : list node) : string :=
         match l with
         | [] => EmptyString
         | c :: r => append (textContent c) (go r)
         end) ch
  end.

(** The descendant elements of [n] in document (pre-)order, [n] excluded:
    the elements [querySelector] searches. *)
Fixpoint descendants (n : node) : list node :=
  match n with
  | NText _ => []
  | NElem _ _ ch =>
      (fix go (l : list node) : list node :=
         match l with
         | [] => []
         | c :: r =>
             match c with
             | NElem _ _ _ => c :: descendants c ++ go r
             | NText _ => go r
             end
         end) ch
  end.

Definition querySelector (sel : node -> bool) (n : node) : option node :=
  List.find sel (descendants n).

(** Selector [[email]]. *)
Definition sel_email (n : node) : bool :=
  match n with NElem (Some _) _ _ => true | _ => false end.

(** Selector [.go, .gD, .g2]. *)
Definition sel_sender (n : node) : bool :=
  match n with
  | NElem _ cls _ =>
      existsb (fun c => String.eqb c "go" || String.eqb c "gD" || String.eqb c "g2") cls
  | NText _ => false
  end.

Definition getAttribute_email (n : node) : option string :=
  match n with NElem e _ _ => e | NText _ => None end.

(** JavaScript truthiness of a string: non-empty. *)
Definition truthy (s : string) : bool :=
  match s with EmptyString => false | _ => true end.

(** Method 1: the first descendant with an [email] attribute. *)
Definition method1 (cur : node) : option string :=
  match querySelector sel_email cur with
  | Some el =>
      match getAttribute_email el with
      | Some e => if truthy e && validateEmail e then Some e else None
      | None => None
      end
  | None => None
  end.

(** Method 2: the element's own [email] attribute. *)
Definition method2 (cur : node) : option string :=
  match getAttribute_email cur with
  | Some e => if truthy e && validateEmail e then Some e else None
  | None => None
  end.

(** Method 3: parse the text of the first sender-display descendant. *)
Definition method3 (cur : node) : option string :=
  match querySelector sel_sender cur with
  | Some el =>
      let extracted := extractEmailAddress (textContent el) in
      if truthy extracted && validateEmail extracted then Some extracted else None
  | None => None
  end.

(** One iteration of the loop body, at the element [current]. *)
Definition try_level (cur : node) : option string :=
  match method1 cur with
  | Some e => Some e
  | None =>
      match method2 cur with
      | Some e => Some e
      | None => method3 cur
      end
  end.

(** The loop [for (let i = 0; i < 15 && current; i++)]: [chain] is the
    clicked element followed by its ancestors ([parentElement] steps);
    [current] becomes [null] when the chain is exhausted. *)
Fixpoint walk_up (i : nat) (chain : list node) : option string :=
  match chain with
  | [] => None
  | cur :: rest =>
      if (i <? 15)%nat then
        match try_level cur with
        | Some e => Some e
        | None => walk_up (S i) rest
        end
      else None
  end.

Definition extractSenderFromElement (chain : list node) : option string :=
  walk_up 0 chain.

(** ** The Gmail page: the parts of the document the workflow reads and writes *)

(** Elements matched by the selectors [button], [a], [span[role="link"]],
    [div[role="link"]]; anything else is [KOther]. *)
Inductive kind : Type := KButton | KAnchor | KSpanLink | KDivLink | KOther.

Record elem : Type := { el_id : Z; el_kind : kind; el_text : string }.

(** A [<label>] with its text and its [for] attribute. *)
Record label : Type := { lb_text : string; lb_for : option string }.

Record input : Type := { in_id : string; in_value : string; in_checked : bool }.

(** A filter row [[data-filter-id]] of the filters settings page. *)
Record row : Type := { row_id : Z; row_text : string }.

(** [d_frag] is the URL fragment (the text after ['#']); [d_settings] says
    whether an element matching [.Tm.aeJ, .aKh] is rendered; [d_saved_from]
    is the host's stored From criterion of the rule being edited, state of
    record of the host that the script never reads directly. *)
Record dom : Type := {
  d_frag : string;
  d_settings : bool;
  d_rows : list row;
  d_elems : list elem;
  d_labels : list label;
  d_inputs : list input;
  d_saved_from : string
}.

(** What a click lands on: an element of [d_elems], a filter row, or an
    input (by id). *)
Inductive target : Type := TElem (id : Z) | TRow (id : Z) | TInput (id : string).

Inductive alert_msg : Type :=
| ANoSender
| AManualStep (labelName : string)
| ASuccess (senderEmail labelName : string)
| AFailure (message : string).

(** Observable effects on the page, most recent first in the log. *)
Inductive event : Type :=
| EvNavigate (hash : string)
| EvSetValue (id value : string)
| EvInput (id : string)
| EvClick (t : target)
| EvAlert (a : alert_msg)
| EvPrompt (senderEmail : string).

(** The host application: how the page reacts to a click and how it evolves
    while the script is suspended for [ms] milliseconds. *)
Class Host : Type := {
  host_click : target -> dom -> dom;
  host_advance : Z -> dom -> dom
}.

Record world : Type := { w_dom : dom; w_now : Z; w_log : list event }.

Inductive result (A : Type) : Type :=
| Ok (a : A)
| Err (message : string).
Arguments Ok {A} a.
Arguments Err {A} message.

(** Async code with exceptions, over the page state. *)
Definition M (A : Type) : Type := world -> result A * world.

Definition ret {A} (a : A) : M A := fun w => (Ok a, w).

Definition bind {A B} (m : M A) (k : A -> M B) : M B :=
  fun w => match m w with
           | (Ok a, w') => k a w'
           | (Err e, w') => (Err e, w')
           end.

Definition throw {A} (msg : string) : M A := fun w => (Err msg, w).

Definition catch {A} (m : M A) (h : string -> M A) : M A :=
  fun w => match m w with
           | (Ok a, w') => (Ok a, w')
           | (Err e, w') => h e w'
           end.

Notation "x <- m ;; k" := (bind m (fun x => k))
  (at level 61, m at next level, right associativity).
Notation "m ;;; k" := (bind m (fun _ => k))
  (at level 61, right associativity).

Definition get_dom : M dom := fun w => (Ok (w_dom w), w).
Definition get_now : M Z := fun w => (Ok (w_now w), w).

Definition emit (e : event) : M unit :=
  fun w => (Ok tt, {| w_dom := w_dom w; w_now := w_now w; w_log := e :: w_log w |}).

Definition modify_dom (f : dom -> dom) : M unit :=
  fun w => (Ok tt, {| w_dom := f (w_dom w); w_now := w_now w; w_log := w_log w |}).

Definition with_frag (d : dom) (f : string) : dom :=
  {| d_frag := f; d_settings := d_settings d; d_rows := d_rows d;
     d_elems := d_elems d; d_labels := d_labels d; d_inputs := d_inputs d;
     d_saved_from := d_saved_from d |}.

Definition with_inputs (d : dom) (l : list input) : dom :=
  {| d_frag := d_frag d; d_settings := d_settings d; d_rows := d_rows d;
     d_elems := d_elems d; d_labels := d_labels d; d_inputs := l;
     d_saved_from := d_saved_from d |}.

(** [window.location.hash]: ["#" + fragment], or [""] for an empty one. *)
Definition hash_of (d : dom) : string :=
  match d_frag d with
  | EmptyString => EmptyString
  | f => String (ch 35) f
  end.

(** The setter drops one leading ['#'] and navigates. *)
Definition frag_of_hash (h : string) : string :=
  match h with
  | String c r => if eqa c (ch 35) then r else h
  | EmptyString => EmptyString
  end.

Definition get_hash : M string := fun w => (Ok (hash_of (w_dom w)), w).

Definition set_hash (h : string) : M unit :=
  emit (EvNavigate h) ;;; modify_dom (fun d => with_frag d (frag_of_hash h)).

Fixpoint set_value_in (id v : string) (l : list input) : list input :=
  match l with
  | [] => []
  | i :: r =>
      if String.eqb (in_id i) id
      then {| in_id := in_id i; in_value := v; in_checked := in_checked i |} :: r
      else i :: set_value_in id v r
  end.

(** [input.value = v] on the element [getElementById(id)]. *)
Definition set_value (id v : string) : M unit :=
  emit (EvSetValue id v) ;;; modify_dom (fun d => with_inputs d (set_value_in id v (d_inputs d))).

(** [dispatchEvent(new Event("input", { bubbles: true }))]. *)
Definition dispatch_input (id : string) : M unit := emit (EvInput id).

Section Page.
Context {H : Host}.

Definition click (t : target) : M unit :=
  emit (EvClick t) ;;; modify_dom (host_click t).

(** [await new Promise(resolve => setTimeout(resolve, ms))]. *)
Definition sleep (ms : Z) : M unit :=
  fun w => (Ok tt, {| w_dom := host_advance ms (w_dom w); w_now := w_now w + ms;
                      w_log := w_log w |}).

Definition alert (a : alert_msg) : M unit := emit (EvAlert a).

End Page.

(** ** findInputByLabel  (utils.ts, lines 133-162) *)

Definition find_label_exact (t : string) (ls : list label) : option label :=
  List.find (fun l => String.eqb (trim (lb_text l)) t) ls.

Definition find_label_ci (t : string) (ls : list label) : option label :=
  List.find (fun l => includes (to_lower (lb_text l)) (to_lower t)) ls.

(** [document.getElementById(id)]. *)
Definition getElementById (id : string) (d : dom) : option input :=
  List.find (fun i => String.eqb (in_id i) id) (d_inputs d).

Definition findInputByLabel (labelText : string) (d : dom) : option input :=
  let lbl := match find_label_exact labelText (d_labels d) with
             | Some l => Some l
             | None => find_label_ci labelText (d_labels d)
             end in
  match lbl with
  | None => None
  | Some l =>
      match lb_for l with
      | Some id => if truthy id then getElementById id d else None
      | None => None
      end
  end.

(** ** Element queries of index.ts *)

(** [querySelectorAll("button, a, span[role=\"link\"], div[role=\"link\"]")]. *)
Definition links_all (d : dom) : list elem :=
  List.filter (fun e => match el_kind e with KOther => false | _ => true end) (d_elems d).

(** [querySelectorAll("button, span[role=\"link\"]")]. *)
Definition buttons_or_spans (d : dom) : list elem :=
  List.filter (fun e => match el_kind e with KButton | KSpanLink => true | _ => false end)
    (d_elems d).

(** [elements.find((el) => el.textContent?.includes(text))]. *)
Definition find_text (t : string) (l : list elem) : option elem :=
  List.find (fun e => includes (el_text e) t) l.

Section Workflow.
Context {H : Host}.

(** The constant [METADATA_PREFIX] of [./constants] (not among the sources):
    the workflow is embedded for any value of it. *)
Variable METADATA_PREFIX : string.

(** ** waitForLabels  (index.ts, lines 299-314)

    [setInterval(check, 100)] fires at 100, 200, ... ms after the call;
    [Date.now()] is read at each firing.  [fuel] bounds the number of
    firings; the default bound used below is reached only after the
    [Date.now() - start > timeout] test has already rejected. *)
Fixpoint wfl_loop (fuel : nat) (timeout start : Z) : M unit :=
  sleep 100 ;;;
  d <- get_dom ;;
  now <- get_now ;;
  if negb (List.forallb (fun _ => false) (d_labels d)) then ret tt
  else if (now - start >? timeout)%Z then throw "Timeout waiting for form labels"
  else match fuel with
       | O => throw "Timeout waiting for form labels"
       | S f => wfl_loop f timeout start
       end.

Definition waitForLabels (timeout : Z) : M unit :=
  start <- get_now ;;
  wfl_loop (Z.to_nat (timeout / 100) + 1) timeout start.

(** ** navigateToFiltersSettings  (index.ts, lines 128-150)

    The interval fires every 200 ms; the 10 s timer resolves at 10000 ms.
    When the settings marker is seen at the [k]-th firing, the promise is
    resolved by the 1000 ms settle timer or by the 10 s timer, whichever
    comes first.  The 50th firing coincides with the 10 s timer, which
    resolves whatever the check sees. *)
Fixpoint nav_loop (fuel : nat) (k : Z) : M unit :=
  sleep 200 ;;;
  match fuel with
  | O => ret tt
  | S f =>
      d <- get_dom ;;
      if d_settings d then sleep (Z.min 1000 (10000 - 200 * k)%Z)
      else nav_loop f (k + 1)%Z
  end.

Definition navigateToFiltersSettings : M unit :=
  set_hash "settings/filters" ;;;
  nav_loop 49 1.

(** ** findFilterByMetadata  (index.ts, lines 180-191) *)
Definition findFilterByMetadata (labelName : string) (rows : list row) : option row :=
  let metadataString := append METADATA_PREFIX labelName in
  List.find (fun r => includes (row_text r) metadataString) rows.

(** The query as a step of the workflow: it reads the rendered rows. *)
Definition findFilterByMetadataM (labelName : string) : M (option row) :=
  d <- get_dom ;;
  ret (findFilterByMetadata labelName (d_rows d)).

(** ** createNewFilter  (index.ts, lines 194-261) *)

Definition buttonTexts : list string :=
  ["Create a new filter"; "Create new filter"; "New filter"; "Create filter"]%string.

(** The [for (const text of buttonTexts)] loop: the first text variant for
    which some element matches, and the first such element. *)
Fixpoint find_create_button (texts : list string) (d : dom) : option elem :=
  match texts with
  | [] => None
  | t :: r =>
      match find_text t (links_all d) with
      | Some b => Some b
      | None => find_create_button r d
      end
  end.

Definition createNewFilter (senderEmail labelName : string) : M unit :=
  d <- get_dom ;;
  match find_create_button buttonTexts d with
  | None => throw "Could not find 'Create a new filter' button"
  | Some createFilterBtn =>
      click (TElem (el_id createFilterBtn)) ;;;
      waitForLabels 5000 ;;;
      d <- get_dom ;;
      match findInputByLabel "From" d with
      | None => throw "Could not find 'From' input field"
      | Some fromInput =>
          set_value (in_id fromInput) senderEmail ;;;
          dispatch_input (in_id fromInput) ;;;
          d <- get_dom ;;
          match findInputByLabel "Doesn't have" d with
          | Some dh =>
              set_value (in_id dh) (append METADATA_PREFIX labelName) ;;;
              dispatch_input (in_id dh)
          | None => ret tt
          end ;;;
          sleep 300 ;;;
          d <- get_dom ;;
          match find_text "Create filter" (buttons_or_spans d) with
          | None => throw "Could not find proceed button"
          | Some proceedBtn =>
              click (TElem (el_id proceedBtn)) ;;;
              sleep 800 ;;;
              d <- get_dom ;;
              match findInputByLabel "Apply the label:" d with
              | None => throw "Could not find 'Apply the label' checkbox"
              | Some cb =>
                  (if negb (in_checked cb)
                   then click (TInput (in_id cb)) ;;; sleep 500
                   else ret tt) ;;;
                  alert (AManualStep labelName)
              end
          end
      end
  end.

(** ** updateExistingFilter  (index.ts, lines 264-296) *)

Definition sep : string := " | ".

Definition updateExistingFilter (filterElement : row) (newSenderEmail : string) : M unit :=
  click (TRow (row_id filterElement)) ;;;
  sleep 1000 ;;;
  d <- get_dom ;;
  match findInputByLabel "From" d with
  | None => throw "Could not find From input field"
  | Some fromInput =>
      let currentValue := in_value fromInput in
      if includes currentValue newSenderEmail then
        d <- get_dom ;;
        match find_text "Cancel" (buttons_or_spans d) with
        | Some cancelBtn => click (TElem (el_id cancelBtn))
        | None => ret tt
        end
      else
        set_value (in_id fromInput) (append currentValue (append sep newSenderEmail)) ;;;
        dispatch_input (in_id fromInput) ;;;
        sleep 500 ;;;
        d <- get_dom ;;
        match find_text "Update filter" (buttons_or_spans d) with
        | Some updateBtn => click (TElem (el_id updateBtn)) ;;; sleep 500
        | None => ret tt
        end
  end.

(** ** createOrUpdateFilter  (index.ts, lines 153-177)

    The [catch] block logs and rethrows: errors propagate unchanged. *)
Definition createOrUpdateFilter (senderEmail labelName : string) : M unit :=
  originalHash <- get_hash ;;
  navigateToFiltersSettings ;;;
  existingFilter <- findFilterByMetadataM labelName ;;
  match existingFilter with
  | Some f => updateExistingFilter f senderEmail
  | None => createNewFilter senderEmail labelName
  end ;;;
  set_hash originalHash.

(** ** handleAutoLabelClick  (index.ts, lines 89-125)

    [rightClickedElement] is the element chain recorded by the
    [contextmenu] listener ([None] for [null]); [answer] is the value
    [prompt] returns ([None] when the user cancels). *)
Definition handleAutoLabelClick (rightClickedElement : option (list node))
    (answer : option string) : M unit :=
  match rightClickedElement with
  | None => ret tt
  | Some chain =>
      match extractSenderFromElement chain with
      | None => alert ANoSender
      | Some senderEmail =>
          emit (EvPrompt senderEmail) ;;;
          match answer with
          | None => ret tt
          | Some labelName =>
              if negb (truthy labelName) || String.eqb (trim labelName) EmptyString
              then ret tt
              else
                catch
                  (createOrUpdateFilter senderEmail (trim labelName) ;;;
                   alert (ASuccess senderEmail labelName))
                  (fun msg => alert (AFailure msg))
          end
      end
  end.

End Workflow.

(** ** Two hosts used to run the workflow on concrete pages *)

(** A page that does not react: clicks change nothing and nothing renders
    while the script waits. *)
Definition static_host : Host := {|
  host_click := fun _ d => d;
  host_advance := fun _ d => d
|}.

Definition with_saved (d : dom) (v : string) : dom :=
  {| d_frag := d_frag d; d_settings := d_settings d; d_rows := d_rows d;
     d_elems := d_elems d; d_labels := d_labels d; d_inputs := d_inputs d;
     d_saved_from := v |}.

(** Opening a rule's edit view loads its stored From criterion into the
    From input. *)
Definition open_rule (d : dom) : dom :=
  match findInputByLabel "From" d with
  | Some i => with_inputs d (set_value_in (in_id i) (d_saved_from d) (d_inputs d))
  | None => d
  end.

(** The Update affordance stores the From input's value. *)
Definition save_rule (d : dom) : dom :=
  match findInputByLabel "From" d with
  | Some i => with_saved d (in_value i)
  | None => d
  end.

Definition settings_click (t : target) (d : dom) : dom :=
  match t with
  | TRow _ => open_rule d
  | TElem id =>
      match List.find (fun e => Z.eqb (el_id e) id) (d_elems d) with
      | Some e => if includes (el_text e) "Update filter" then save_rule d else d
      | None => d
      end
  | TInput _ => d
  end.

(** The filters settings page with one rule open for editing: clicking a
    row opens the rule, Update stores the edit, anything else (Cancel
    included) leaves the stored rule as it is; an edit that is not stored
    is lost when the rule is opened again. *)
Definition settings_host : Host := {|
  host_click := settings_click;
  host_advance := fun _ d => d
|}.

(** ** Concrete pages *)

(** [inbox] view, settings marker rendered, no filter rows, no buttons. *)
Definition page0 : dom := {|
  d_frag := "inbox"; d_settings := true; d_rows := []; d_elems := [];
  d_labels := []; d_inputs := []; d_saved_from := "" |}.
Definition world0 : world := {| w_dom := page0; w_now := 0; w_log := [] |}.

(** The same view with the filter form's labels already rendered. *)
Definition page_form : dom := {|
  d_frag := "inbox"; d_settings := true; d_rows := []; d_elems := [];
  d_labels := [{| lb_text := "From"; lb_for := Some "from"%string |}];
  d_inputs := [{| in_id := "from"; in_value := ""; in_checked := false |}];
  d_saved_from := "" |}.
Definition world_form : world := {| w_dom := page_form; w_now := 0; w_log := [] |}.

(** A page on which neither the labels nor the settings marker render. *)
Definition page_blank : dom := {|
  d_frag := "inbox"; d_settings := false; d_rows := []; d_elems := [];
  d_labels := []; d_inputs := []; d_saved_from := "" |}.
Definition world_blank : world := {| w_dom := page_blank; w_now := 0; w_log := [] |}.

(** Fifteen empty levels above the clicked element, then the message
    header carrying the sender's address. *)
Definition chain_deep : list node :=
  repeat (NElem None [] []) 15 ++ [NElem (Some "jane@example.com"%string) [] []].

(** The sender field of claim C10's example. *)
Definition level_bad_bracket : node :=
  NElem None [] [NElem None ["gD"%string] [NText "x <bad> good@a.com"]].

(** A message header carrying the sender's address. *)
Definition chain_jane : list node := [NElem (Some "jane@example.com"%string) [] []].

Definition btn_new : elem := {| el_id := 7; el_kind := KSpanLink; el_text := "New filter" |}.

(** Filters page with a [New filter] link and an unrelated [Cancel] button. *)
Definition page_create : dom := {|
  d_frag := "settings/filters"; d_settings := true; d_rows := [];
  d_elems := [{| el_id := 3; el_kind := KButton; el_text := "Cancel" |}; btn_new];
  d_labels := []; d_inputs := []; d_saved_from := "" |}.

(** The log of a computation only grows. *)
Definition extends_log {A} (m : M A) : Prop :=
  forall w, exists l, w_log (snd (m w)) = l ++ w_log w.

(** The input [j] after [input.value = v]. *)
Definition upd_value (j : input) (v : string) : input :=
  {| in_id := in_id j; in_value := v; in_checked := in_checked j |}.

(** A rule row of the filters page. *)
Definition rule_row : row := {| row_id := 1; row_text := "From: old@example.com [auto-label]Work" |}.

Definition from_label : label := {| lb_text := "From"; lb_for := Some "from"%string |}.

(** The rule's edit view without any Update or Cancel affordance; the stored
    From criterion is [old@example.com]. *)
Definition page_rule_bare : dom := {|
  d_frag := "settings/filters"; d_settings := true; d_rows := [rule_row]; d_elems := [];
  d_labels := [from_label];
  d_inputs := [{| in_id := "from"; in_value := ""; in_checked := false |}];
  d_saved_from := "old@example.com" |}.
Definition world_rule_bare : world := {| w_dom := page_rule_bare; w_now := 0; w_log := [] |}.

Definition btn_update : elem := {| el_id := 10; el_kind := KButton; el_text := "Update filter" |}.
Definition btn_cancel : elem := {| el_id := 11; el_kind := KButton; el_text := "Cancel" |}.

(** The same edit view with its Update and Cancel buttons. *)
Definition page_rule : dom := {|
  d_frag := "settings/filters"; d_settings := true; d_rows := [rule_row];
  d_elems := [btn_update; btn_cancel];
  d_labels := [from_label];
  d_inputs := [{| in_id := "from"; in_value := ""; in_checked := false |}];
  d_saved_from := "old@example.com" |}.
Definition world_rule : world := {| w_dom := page_rule; w_now := 0; w_log := [] |}.

Definition from_old : input := {| in_id := "from"; in_value := "old@example.com"; in_checked := false |}.

(** ** Further definitions: specifications of whole computations *)

(** The language of the address pattern [/^[^\s@]+@[^\s@]+\.[^\s@]+$/] of
    [validateEmail], as a predicate on characters. *)
Definition email_regex_match (s : chars) : Prop :=
  exists l d1 d2, s = l ++ c_at :: d1 ++ c_dot :: d2 /\
    l <> [] /\ d1 <> [] /\ d2 <> [] /\
    forallb ns l = true /\ forallb ns d1 = true /\ forallb ns d2 = true.

(** [a] occurs in [s] as a contiguous run of characters. *)
Definition infix (a s : chars) : Prop := exists p q, s = p ++ a ++ q.

(** Every value a computation [m] writes into an input (an [EvSetValue] it
    logs) satisfies [P], whatever the world it runs in. *)
Definition writes_only {A} (P : string -> Prop) (m : M A) : Prop :=
  forall w, exists l, w_log (snd (m w)) = l ++ w_log w /\
    forall id v, In (EvSetValue id v) l -> P v.

(** Every error [m] can reject with is one of the messages [L]. *)
Definition fails_only {A} (L : list string) (m : M A) : Prop :=
  forall w, match fst (m w) with Ok _ => True | Err e => In e L end.

(** The messages thrown in [createNewFilter], [updateExistingFilter] and
    [waitForLabels]. *)
Definition workflow_errors : list string :=
  ["Could not find 'Create a new filter' button"; "Timeout waiting for form labels";
   "Could not find 'From' input field"; "Could not find proceed button";
   "Could not find 'Apply the label' checkbox"; "Could not find From input field"]%string.

(** The values the workflow may write into an input, for sender [s] and
    label [l]: the sender, the metadata marker, or an old From criterion
    not containing [s] extended by [" | " + s]. *)
Definition workflow_value (METADATA_PREFIX s l v : string) : Prop :=
  v = s \/ v = append METADATA_PREFIX l \/
  exists c, v = append c (append sep s) /\ includes c s = false.

(** A filter form in which a label merely containing ["From"] precedes the
    label whose text is exactly ["From"]. *)
Definition page_two_from : dom := {|
  d_frag := "settings/filters"; d_settings := true; d_rows := []; d_elems := [];
  d_labels := [{| lb_text := "From address"; lb_for := Some "addr"%string |};
               {| lb_text := " From "; lb_for := Some "from"%string |}];
  d_inputs := [{| in_id := "addr"; in_value := ""; in_checked := false |};
               {| in_id := "from"; in_value := ""; in_checked := false |}];
  d_saved_from := "" |}.

(** *** Gmail's context menu ([injectContextMenuItem] of index.ts)

    A menu element: whether it carries [data-auto-label-sender], its
    [role], its text and its child elements.  Styles and the item's event
    listeners are not modelled. *)
Inductive mnode : Type :=
| MNode (auto_label : bool) (role : option string) (text : string) (children : list mnode).

Definition m_children (n : mnode) : list mnode := let 'MNode _ _ _ cs := n in cs.
Definition m_auto_label (n : mnode) : bool := let 'MNode b _ _ _ := n in b.

(** The elements below [n], in document order. *)
Fixpoint mdescendants (n : mnode) : list mnode :=
  let 'MNode _ _ _ cs := n in
  (fix go (l : list mnode) : list mnode :=
     match l with
     | [] => []
     | c :: r => c :: mdescendants c ++ go r
     end) cs.

(** [menu.querySelector("[data-auto-label-sender]")] is non-null. *)
Definition has_auto_label_item (menu : mnode) : bool :=
  match List.find m_auto_label (mdescendants menu) with Some _ => true | None => false end.

Definition menuItem : mnode := MNode true (Some "menuitem"%string) "Auto-Label Sender" [].
Definition separator : mnode := MNode false None "" [].

(** [insertBefore(x, child n)]; a missing reference child appends. *)
Definition insert_before (x : mnode) (n : nat) (l : list mnode) : list mnode :=
  firstn n l ++ x :: skipn n l.

Definition injectContextMenuItem (menu : mnode) : mnode :=
  if has_auto_label_item menu then menu
  else
    let 'MNode b r t cs := menu in
    let cs1 := insert_before menuItem 0 cs in
    let cs2 := insert_before separator 1 cs1 in
    MNode b r t cs2.

(** The [addSelectorListener] callback of [run]: [visible] is
    [menuElement.offsetParent !== null]. *)
Definition menu_listener (visible : bool) (menuElement : mnode) : mnode :=
  if visible then injectContextMenuItem menuElement else menuElement.

(** *** [onInteraction] of utils.ts

    Events reaching the element, the registrations of [proxListener] still
    present for ["click"] and ["keydown"], and what one event does: default
    prevented, propagation stopped, [listener] called. *)
Inductive ievent : Type := IClick | IKeydown (key : string).

Record ilisteners : Type := { on_click : bool; on_keydown : bool }.

Record ioutcome : Type := { o_prevented : bool; o_stopped : bool; o_called : bool }.

Definition quiet : ioutcome := {| o_prevented := false; o_stopped := false; o_called := false |}.
Definition handled : ioutcome := {| o_prevented := true; o_stopped := true; o_called := true |}.

Definition activation_keys : list string := [ "Enter"; " "; "Space"; "Spacebar" ]%string.

(** [proxListener]; [once] is [listenerOptions?.once]. *)
Definition proxListener (once : bool) (e : ievent) (st : ilisteners) : ilisteners * ioutcome :=
  match e with
  | IKeydown k =>
      if negb (existsb (String.eqb k) activation_keys) then (st, quiet)
      else ({| on_click := on_click st && negb once; on_keydown := on_keydown st |}, handled)
  | IClick =>
      ({| on_click := on_click st; on_keydown := on_keydown st && negb once |}, handled)
  end.

(** The browser's dispatch of one event: an unregistered type does nothing;
    a [once] registration is removed before its callback runs. *)
Definition dispatch (once : bool) (e : ievent) (st : ilisteners) : ilisteners * ioutcome :=
  let registered := match e with IClick => on_click st | IKeydown _ => on_keydown st end in
  if negb registered then (st, quiet)
  else
    let st1 := if once then
                 match e with
                 | IClick => {| on_click := false; on_keydown := on_keydown st |}
                 | IKeydown _ => {| on_click := on_click st; on_keydown := false |}
                 end
               else st in
    proxListener once e st1.

(** The state [onInteraction] leaves: both listeners added. *)
Definition onInteraction : ilisteners := {| on_click := true; on_keydown := true |}.

Fixpoint run_events (once : bool) (st : ilisteners) (evs : list ievent) : list ioutcome :=
  match evs with
  | [] => []
  | e :: r => let '(st', o) := dispatch once e st in o :: run_events once st' r
  end.

Definition activates (e : ievent) : bool :=
  match e with IClick => true | IKeydown k => existsb (String.eqb k) activation_keys end.

Definition is_click (e : ievent) : bool := match e with IClick => true | IKeydown _ => false end.

(** How many times [listener] was called. *)
Definition calls (outs : list ioutcome) : nat := length (filter o_called outs).

(** *** [clearInner] and [clearNode] of utils.ts

    The result is the element afterwards and the nodes removed, in order of
    removal; each [while] loop removes the first child until none is left,
    so it runs once per child. *)
Fixpoint clearNode (element : node) : list node :=
  match element with
  | NText d => [NText d]
  | NElem e c cs =>
      (fix loop (l : list node) : list node :=
         match l with [] => [] | x :: r => clearNode x ++ loop r end) cs
      ++ [NElem e c []]
  end.

Fixpoint clear_children (l : list node) : list node :=
  match l with [] => [] | x :: r => clearNode x ++ clear_children r end.

Definition clearInner (element : node) : node * list node :=
  match element with
  | NText d => (NText d, [])
  | NElem e c cs => (NElem e c [], clear_children cs)
  end.

Definition child_nodes (n : node) : list node :=
  match n with NText _ => [] | NElem _ _ cs => cs end.

(** The number of nodes (elements and text) in a subtree. *)
Fixpoint node_count (n : node) : nat :=
  match n with
  | NText _ => 1
  | NElem _ _ cs => S ((fix go (l : list node) : nat :=
                         match l with [] => 0 | x :: r => node_count x + go r end) cs)
  end.

Fixpoint count_children (l : list node) : nat :=
  match l with [] => 0 | x :: r => node_count x + count_children r end.


(** ** Theorems *)

Example validate_ex1 : validateEmail "jane@example.com" = true.
Proof. reflexivity. Qed.
Example validate_ex2 : validateEmail "jane@examplecom" = false.
Proof. reflexivity. Qed.
Example validate_ex3 : validateEmail "a@.b" = false.
Proof. reflexivity. Qed.
Example validate_ex4 : validateEmail "a@b." = false.
Proof. reflexivity. Qed.
Example validate_ex5 : validateEmail "a@b.c@d" = false.
Proof. reflexivity. Qed.
Example validate_ex6 : validateEmail "a@b..c" = true.
Proof. reflexivity. Qed.
Example extract_ex1 : extractEmailAddress "Jane Doe <jane@example.com>" = "jane@example.com"%string.
Proof. reflexivity. Qed.
Example extract_ex2 : extractEmailAddress "from: a.b-c@x.y.com, more" = "a.b-c@x.y.com"%string.
Proof. reflexivity. Qed.
Example extract_ex3 : extractEmailAddress "a+b@c.d" = "b@c.d"%string.
Proof. reflexivity. Qed.
Example extract_ex4 : extractEmailAddress "  no address  " = "no address"%string.
Proof. reflexivity. Qed.
Example extract_ex5 : extractEmailAddress "x <bad> good@a.com" = "bad"%string.
Proof. reflexivity. Qed.
Example extract_ex6 : extractEmailAddress "a@b.c-d" = "a@b.c"%string.
Proof. reflexivity. Qed.
Example extract_ex7 : extractEmailAddress "a@b.c.d-" = "a@b.c.d"%string.
Proof. reflexivity. Qed.
Example extract_ex8 : extractEmailAddress "a@b.-c" = "a@b.-c"%string.
Proof. reflexivity. Qed.
Example sender_ex1 :
  extractSenderFromElement
    [NText "x"; NElem None [] [NElem None ["gD"%string] [NText "Jane Doe <jane@example.com>"]]]
  = Some "jane@example.com"%string.
Proof. reflexivity. Qed.

Example cof_ex1 :
  let '(r, w) := @createOrUpdateFilter static_host "[auto-label]" "jane@example.com" "Newsletter" world0 in
  (r, hash_of (w_dom w), w_now w, w_log w) = (Err "Could not find 'Create a new filter' button", "#settings/filters"%string, 1200%Z, [EvNavigate "settings/filters"]).
Proof. reflexivity. Qed.

(** *** Facts about the monad *)

Lemma bind_ok {A B} (m : M A) (k : A -> M B) w a w' :
  m w = (Ok a, w') -> bind m k w = k a w'.
Proof. intros E. unfold bind. rewrite E. reflexivity. Qed.

Lemma bind_err {A B} (m : M A) (k : A -> M B) w e w' :
  m w = (Err e, w') -> bind m k w = (Err e, w').
Proof. intros E. unfold bind. rewrite E. reflexivity. Qed.

(** A computation that ends with [set_hash h] and succeeds leaves the hash
    [h] denotes. *)
Lemma bind_set_hash_ok {A} (m : M A) h w w' :
  bind m (fun _ => set_hash h) w = (Ok tt, w') ->
  exists w'', w' = snd (set_hash h w'').
Proof.
  unfold bind. destruct (m w) as [[a|e] w1].
  - intros E. exists w1. rewrite E. reflexivity.
  - discriminate.
Qed.

Lemma hash_of_with_frag_roundtrip d0 d :
  hash_of (with_frag d (frag_of_hash (hash_of d0))) = hash_of d0.
Proof.
  unfold hash_of, with_frag; simpl. destruct (d_frag d0) as [|c r]; simpl.
  - reflexivity.
  - reflexivity.
Qed.

(** The success path of createOrUpdateFilter restores the hash read at its
    start (index.ts, line 171). *)
Lemma createOrUpdateFilter_ok_restores {H : Host} p s l w w' :
  createOrUpdateFilter p s l w = (Ok tt, w') ->
  hash_of (w_dom w') = hash_of (w_dom w).
Proof.
  unfold createOrUpdateFilter. unfold bind at 1, get_hash. cbn beta iota.
  unfold bind at 1. destruct (navigateToFiltersSettings w) as [[u|e] w1];
    [|discriminate].
  unfold bind at 1. destruct (findFilterByMetadataM p l w1) as [[f|e] w2];
    [|discriminate].
  intros E. apply bind_set_hash_ok in E. destruct E as [w'' ->].
  unfold set_hash, bind, emit, modify_dom; cbn.
  apply hash_of_with_frag_roundtrip.
Qed.

(** *** Effects only add to the log *)

Create HintDb logdb.

Lemma ext_ret {A} (a : A) : extends_log (ret a).
Proof. intros w. exists []. reflexivity. Qed.

Lemma ext_throw {A} msg : extends_log (@throw A msg).
Proof. intros w. exists []. reflexivity. Qed.

Lemma ext_emit e : extends_log (emit e).
Proof. intros w. exists [e]. reflexivity. Qed.

Lemma ext_modify f : extends_log (modify_dom f).
Proof. intros w. exists []. reflexivity. Qed.

Lemma ext_get_dom : extends_log get_dom.
Proof. intros w. exists []. reflexivity. Qed.

Lemma ext_get_now : extends_log get_now.
Proof. intros w. exists []. reflexivity. Qed.

Lemma ext_bind {A B} (m : M A) (k : A -> M B) :
  extends_log m -> (forall a, extends_log (k a)) -> extends_log (bind m k).
Proof.
  intros Hm Hk w. unfold bind. destruct (Hm w) as [l1 E1].
  destruct (m w) as [[a|e] w1] eqn:Ew; simpl in *.
  - destruct (Hk a w1) as [l2 E2]. exists (l2 ++ l1). rewrite E2, E1, app_assoc. reflexivity.
  - exists l1. exact E1.
Qed.

Lemma ext_sleep {H : Host} ms : extends_log (sleep ms).
Proof. intros w. exists []. reflexivity. Qed.

Lemma ext_click {H : Host} t : extends_log (click t).
Proof. unfold click. apply ext_bind; [apply ext_emit|intros; apply ext_modify]. Qed.

Lemma ext_set_value id v : extends_log (set_value id v).
Proof. unfold set_value. apply ext_bind; [apply ext_emit|intros; apply ext_modify]. Qed.

#[local] Hint Resolve ext_ret ext_throw ext_emit ext_modify ext_get_dom ext_get_now
  ext_sleep ext_click ext_set_value : logdb.

Ltac ext_solve :=
  repeat match goal with
         | |- extends_log (bind _ _) => apply ext_bind; [|intro]
         | |- extends_log (match ?x with _ => _ end) => destruct x
         | |- extends_log (if ?x then _ else _) => destruct x
         | _ => solve [eauto with logdb]
         end.

Lemma ext_wfl_loop {H : Host} n t s : extends_log (wfl_loop n t s).
Proof. induction n; simpl; unfold dispatch_input, alert in *; ext_solve. Qed.

Lemma ext_waitForLabels {H : Host} t : extends_log (waitForLabels t).
Proof. unfold waitForLabels. apply ext_bind; [auto with logdb|intros; apply ext_wfl_loop]. Qed.

#[local] Hint Resolve ext_waitForLabels : logdb.

(** *** Finding the first element with a given text *)

Lemma find_first {T} (f : T -> bool) l x :
  List.find f l = Some x ->
  exists l1 l2, l = l1 ++ x :: l2 /\ f x = true /\ forall y, In y l1 -> f y = false.
Proof.
  induction l as [|a l IH]; simpl; [discriminate|].
  destruct (f a) eqn:Fa.
  - intros E. inversion E; subst. exists [], l. simpl. intuition.
  - intros E. destruct (IH E) as (l1 & l2 & -> & Fx & Hl1).
    exists (a :: l1), l2. split; [reflexivity|]. split; [exact Fx|].
    intros y [<-|Hy]; auto.
Qed.

Lemma find_first_app {T} (f : T -> bool) l1 x l2 :
  f x = true -> (forall y, In y l1 -> f y = false) ->
  List.find f (l1 ++ x :: l2) = Some x.
Proof.
  intros Fx Hl1. induction l1 as [|a l1 IH]; simpl.
  - rewrite Fx. reflexivity.
  - rewrite (Hl1 a (or_introl eq_refl)). apply IH. intros y Hy. apply Hl1. now right.
Qed.

Lemma find_none_iff {T} (f : T -> bool) l :
  List.find f l = None <-> forall y, In y l -> f y = false.
Proof.
  split.
  - apply find_none.
  - induction l as [|a l IH]; simpl; intros Hn; [reflexivity|].
    rewrite (Hn a (or_introl eq_refl)). apply IH. intros y Hy. apply Hn. now right.
Qed.

Lemma find_create_button_some texts d b :
  find_create_button texts d = Some b ->
  exists pre t post, texts = pre ++ t :: post /\
    (forall t', In t' pre -> find_text t' (links_all d) = None) /\
    find_text t (links_all d) = Some b.
Proof.
  induction texts as [|t r IH]; simpl; [discriminate|].
  destruct (find_text t (links_all d)) as [b'|] eqn:Ft.
  - intros E. inversion E; subst. exists [], t, r. simpl. intuition.
  - intros E. destruct (IH E) as (pre & t0 & post & -> & Hpre & Ht0).
    exists (t :: pre), t0, post. split; [reflexivity|]. split; [|exact Ht0].
    intros t' [<-|Ht']; auto.
Qed.

Lemma find_create_button_none texts d :
  find_create_button texts d = None <->
  forall t, In t texts -> find_text t (links_all d) = None.
Proof.
  induction texts as [|t r IH]; simpl.
  - split; [contradiction|reflexivity].
  - destruct (find_text t (links_all d)) eqn:Ft.
    + split; [discriminate|]. intros Hn. rewrite (Hn t (or_introl eq_refl)) in Ft. discriminate.
    + rewrite IH. split.
      * intros Hr t' [<-|Ht']; auto.
      * intros Hn t' Ht'. apply Hn. now right.
Qed.

Lemma ext_after_click {H : Host} {B} t (k : unit -> M B) w :
  (forall a, extends_log (k a)) ->
  exists evs, w_log (snd (bind (click t) k w)) = evs ++ EvClick t :: w_log w.
Proof.
  intros Hk. unfold bind, click at 1. unfold bind, emit, modify_dom; cbn.
  destruct (Hk tt {| w_dom := host_click t (w_dom w); w_now := w_now w;
                     w_log := EvClick t :: w_log w |}) as [evs E].
  exists evs. exact E.
Qed.

(** ** Claim C1 *)

(** C1 (code_bug).  The restoration of the original location is on the
    success path only: when the creation step raises, the workflow ends on
    the filters settings view.  Here the page shows [#inbox], no filter row
    carries the marker and no create-filter affordance is rendered:
    createOrUpdateFilter raises the element-not-found error and the hash is
    left at [#settings/filters]. *)
Theorem createOrUpdateFilter_error_leaves_settings (METADATA_PREFIX : string) :
  hash_of (w_dom world0) = "#inbox"%string /\
  let '(r, w) := @createOrUpdateFilter static_host METADATA_PREFIX
                   "jane@example.com" "Newsletter" world0 in
  r = Err "Could not find 'Create a new filter' button" /\
  hash_of (w_dom w) = "#settings/filters"%string.
Proof. split; [reflexivity|]. vm_compute. split; reflexivity. Qed.

(** ** Claim C6 *)

(** C6.  findFilterByMetadata returns [null] when no rendered filter row's
    text contains the marker [METADATA_PREFIX + labelName]; when exactly one
    row's text contains it, that row is returned whatever the text of the
    other rows; and as a step of the workflow the query reads the page and
    leaves the world (page, clock, log) unchanged. *)
Theorem findFilterByMetadata_spec (METADATA_PREFIX labelName : string) (rows : list row) :
  ((forall r, In r rows ->
      includes (row_text r) (append METADATA_PREFIX labelName) = false) ->
   findFilterByMetadata METADATA_PREFIX labelName rows = None) /\
  (forall l1 r l2, rows = l1 ++ r :: l2 ->
     includes (row_text r) (append METADATA_PREFIX labelName) = true ->
     (forall r', In r' l1 \/ In r' l2 ->
        includes (row_text r') (append METADATA_PREFIX labelName) = false) ->
     findFilterByMetadata METADATA_PREFIX labelName rows = Some r) /\
  (forall w, findFilterByMetadataM METADATA_PREFIX labelName w =
             (Ok (findFilterByMetadata METADATA_PREFIX labelName (d_rows (w_dom w))), w)).
Proof.
  unfold findFilterByMetadata. split; [|split].
  - intros Hn. apply find_none_iff. exact Hn.
  - intros l1 r l2 -> Hr Ho. apply find_first_app; [exact Hr|].
    intros y Hy. apply Ho. now left.
  - intros w. reflexivity.
Qed.

(** ** Claim C7 *)

(** C7.  Once the sender is found, a cancelled prompt ([null]) or a
    blank answer ends handleAutoLabelClick without error: the only effect
    is the prompt itself; no navigation, no click, no input write, no alert,
    and the page and clock are unchanged. *)
Theorem handleAutoLabelClick_blank_label {H : Host} (METADATA_PREFIX : string)
    (chain : list node) (senderEmail : string) (answer : option string) (w : world)
    (Hs : extractSenderFromElement chain = Some senderEmail)
    (Ha : answer = None \/ exists l, answer = Some l /\ trim l = EmptyString) :
  handleAutoLabelClick METADATA_PREFIX (Some chain) answer w =
  (Ok tt, {| w_dom := w_dom w; w_now := w_now w; w_log := EvPrompt senderEmail :: w_log w |}).
Proof.
  unfold handleAutoLabelClick. rewrite Hs.
  destruct Ha as [->|(l & -> & Ht)].
  - reflexivity.
  - rewrite Ht. simpl. rewrite orb_true_r. reflexivity.
Qed.

Lemma handleAutoLabelClick_blank_label_witness :
  extractSenderFromElement chain_jane = Some "jane@example.com"%string /\
  @handleAutoLabelClick static_host "[auto-label]" (Some chain_jane) (Some "   "%string) world0 =
  (Ok tt, {| w_dom := page0; w_now := 0; w_log := [EvPrompt "jane@example.com"] |}).
Proof.
  split; [reflexivity|].
  apply (@handleAutoLabelClick_blank_label static_host "[auto-label]" chain_jane
           "jane@example.com" (Some "   "%string) world0).
  - reflexivity.
  - right. exists "   "%string. split; reflexivity.
Defined.

(** ** Claim C8 *)

(** C8.  createNewFilter tries the button texts in their order and, for the
    first text some candidate element contains, takes the first such element
    in document order and clicks it before anything else; when no text
    matches any element it raises the element-not-found error at once,
    leaving the world unchanged. *)
Theorem createNewFilter_create_button {H : Host} (METADATA_PREFIX senderEmail labelName : string)
    (w : world) :
  (forall b, find_create_button buttonTexts (w_dom w) = Some b ->
     (exists pre t post l1 l2,
        buttonTexts = pre ++ t :: post /\
        (forall t' e, In t' pre -> In e (links_all (w_dom w)) -> includes (el_text e) t' = false) /\
        links_all (w_dom w) = l1 ++ b :: l2 /\ includes (el_text b) t = true /\
        (forall e, In e l1 -> includes (el_text e) t = false)) /\
     exists evs, w_log (snd (createNewFilter METADATA_PREFIX senderEmail labelName w)) =
                 evs ++ EvClick (TElem (el_id b)) :: w_log w) /\
  ((forall t e, In t buttonTexts -> In e (links_all (w_dom w)) -> includes (el_text e) t = false) ->
   createNewFilter METADATA_PREFIX senderEmail labelName w =
   (Err "Could not find 'Create a new filter' button", w)).
Proof.
  split.
  - intros b Hb. split.
    + destruct (find_create_button_some _ _ _ Hb) as (pre & t & post & Et & Hpre & Ht).
      destruct (find_first _ _ _ Ht) as (l1 & l2 & El & Hbt & Hl1).
      exists pre, t, post, l1, l2. split; [exact Et|]. split.
      * intros t' e Ht' He. specialize (Hpre t' Ht'). unfold find_text in Hpre.
        rewrite find_none_iff in Hpre. apply Hpre. exact He.
      * split; [exact El|]. split; [exact Hbt|exact Hl1].
    + unfold createNewFilter. unfold bind at 1, get_dom. cbn beta iota. rewrite Hb.
      apply ext_after_click. intros _. unfold dispatch_input, alert. ext_solve.
  - intros Hn. unfold createNewFilter. unfold bind at 1, get_dom. cbn beta iota.
    assert (E : find_create_button buttonTexts (w_dom w) = None).
    { apply find_create_button_none. intros t Ht. unfold find_text.
      apply find_none_iff. intros e He. apply Hn; assumption. }
    rewrite E. reflexivity.
Qed.

Lemma createNewFilter_create_button_witness :
  find_create_button buttonTexts page_create = Some btn_new /\
  (exists evs, w_log (snd (@createNewFilter static_host "[auto-label]" "jane@example.com" "Newsletter"
                            {| w_dom := page_create; w_now := 0; w_log := [] |})) =
               evs ++ [EvClick (TElem 7)]) /\
  @createNewFilter static_host "[auto-label]" "jane@example.com" "Newsletter" world0 =
  (Err "Could not find 'Create a new filter' button", world0).
Proof.
  split; [reflexivity|]. split.
  - apply (proj1 (@createNewFilter_create_button static_host "[auto-label]" "jane@example.com"
                    "Newsletter" {| w_dom := page_create; w_now := 0; w_log := [] |}) btn_new).
    reflexivity.
  - apply (proj2 (@createNewFilter_create_button static_host "[auto-label]" "jane@example.com"
                    "Newsletter" world0)).
    intros t e _ He. simpl in He. contradiction.
Defined.

(** ** Claim C2 *)

Lemma wfl_loop_false {H : Host} (n : nat) (t s j : Z) (w : world) :
  (forall ms d, d_labels d = [] -> d_labels (host_advance ms d) = []) ->
  d_labels (w_dom w) = [] -> w_now w = (s + 100 * j)%Z -> (0 <= j)%Z -> (100 * j <= t)%Z ->
  (t < 100 * (j + 1 + Z.of_nat n))%Z ->
  exists w', wfl_loop n t s w = (Err "Timeout waiting for form labels", w') /\
             w_now w' = (s + 100 * (t / 100 + 1))%Z.
Proof.
  intros Hp. revert j w.
  induction n as [|n IH]; intros j w Hd Hn Hj Hjt Ht;
    rewrite ?Nat2Z.inj_succ in Ht; simpl Z.of_nat in Ht.
  - cbn [wfl_loop]. unfold bind, sleep, get_dom, get_now.
    cbn - [Z.gtb Z.add Z.mul Z.sub Z.div].
    rewrite (Hp 100%Z _ Hd). cbn - [Z.gtb Z.add Z.mul Z.sub Z.div].
    assert (E : (w_now w + 100 - s >? t)%Z = true) by (apply Z.gtb_lt; lia).
    rewrite E. eexists; split; [reflexivity|]. cbn [w_now].
    assert (j = t / 100)%Z by (apply Z.div_unique with (t - 100 * j)%Z; lia). lia.
  - cbn [wfl_loop]. unfold bind, sleep, get_dom, get_now.
    cbn - [Z.gtb Z.add Z.mul Z.sub Z.div].
    rewrite (Hp 100%Z _ Hd). cbn - [Z.gtb Z.add Z.mul Z.sub Z.div].
    destruct (w_now w + 100 - s >? t)%Z eqn:E.
    + apply Z.gtb_lt in E. eexists; split; [reflexivity|]. cbn [w_now].
      assert (j = t / 100)%Z by (apply Z.div_unique with (t - 100 * j)%Z; lia). lia.
    + rewrite Z.gtb_ltb, Z.ltb_ge in E. apply (IH (j + 1)%Z); cbn [w_dom w_now]; try lia.
      apply Hp. exact Hd.
Qed.

Lemma waitForLabels_never {H : Host} (t : Z) (w : world) :
  (forall ms d, d_labels d = [] -> d_labels (host_advance ms d) = []) ->
  d_labels (w_dom w) = [] -> (0 <= t)%Z ->
  exists w', waitForLabels t w = (Err "Timeout waiting for form labels", w') /\
             w_now w' = (w_now w + 100 * (t / 100 + 1))%Z /\
             (t < w_now w' - w_now w <= t + 100)%Z.
Proof.
  intros Hp Hd Ht.
  assert (Hm := Z.mod_pos_bound t 100 ltac:(lia)).
  assert (Hdm := Z.div_mod t 100 ltac:(lia)).
  assert (Hq : (0 <= t / 100)%Z) by (apply Z.div_pos; lia).
  unfold waitForLabels. unfold bind at 1, get_now. cbn beta iota.
  destruct (wfl_loop_false (Z.to_nat (t / 100) + 1) t (w_now w) 0 w Hp Hd)
    as (w' & E & En); try lia.
  exists w'. rewrite E. split; [reflexivity|]. split; lia.
Qed.

Lemma waitForLabels_always {H : Host} (t : Z) (w : world) :
  (forall ms d, d_labels d <> [] -> d_labels (host_advance ms d) <> []) ->
  d_labels (w_dom w) <> [] ->
  waitForLabels t w =
  (Ok tt, {| w_dom := host_advance 100 (w_dom w); w_now := (w_now w + 100)%Z;
             w_log := w_log w |}).
Proof.
  intros Hp Hd. unfold waitForLabels. unfold bind at 1, get_now. cbn beta iota.
  rewrite Nat.add_1_r. cbn [wfl_loop]. unfold bind, sleep, get_dom, get_now.
  cbn - [Z.gtb Z.add Z.mul Z.sub Z.div].
  destruct (d_labels (host_advance 100 (w_dom w))) eqn:E.
  - exfalso. exact (Hp 100%Z _ Hd E).
  - reflexivity.
Qed.

Lemma nav_loop_never {H : Host} (n : nat) (k : Z) (w : world) :
  (forall ms d, d_settings d = false -> d_settings (host_advance ms d) = false) ->
  d_settings (w_dom w) = false ->
  exists w', nav_loop n k w = (Ok tt, w') /\
             w_now w' = (w_now w + 200 * (Z.of_nat n + 1))%Z.
Proof.
  intros Hp. revert k w. induction n as [|n IH]; intros k w Hd.
  - cbn [nav_loop]. unfold bind, sleep, ret. eexists; split; [reflexivity|].
    cbn [w_now]. simpl Z.of_nat. lia.
  - cbn [nav_loop]. unfold bind at 1, sleep. cbn beta iota.
    unfold bind at 1, get_dom. cbn [w_dom]. rewrite (Hp _ _ Hd).
    destruct (IH (k + 1)%Z {| w_dom := host_advance 200 (w_dom w); w_now := (w_now w + 200)%Z;
                              w_log := w_log w |}) as (w' & E & En).
    + cbn [w_dom]. apply Hp. exact Hd.
    + exists w'. split; [exact E|]. rewrite En. cbn [w_now]. lia.
Qed.

Lemma navigate_never {H : Host} (w : world) :
  (forall ms d, d_settings d = false -> d_settings (host_advance ms d) = false) ->
  d_settings (w_dom w) = false ->
  exists w', navigateToFiltersSettings w = (Ok tt, w') /\ w_now w' = (w_now w + 10000)%Z.
Proof.
  intros Hp Hd. unfold navigateToFiltersSettings. unfold bind at 1.
  unfold set_hash, bind, emit, modify_dom. cbn beta iota.
  destruct (nav_loop_never 49 1 {| w_dom := with_frag (w_dom w) (frag_of_hash "settings/filters");
                                   w_now := w_now w; w_log := EvNavigate "settings/filters" :: w_log w |}
              Hp Hd) as (w' & E & En).
  exists w'. split; [exact E|]. rewrite En. cbn [w_now]. simpl Z.of_nat. lia.
Qed.

Lemma navigate_always {H : Host} (w : world) :
  (forall ms d, d_settings d = true -> d_settings (host_advance ms d) = true) ->
  d_settings (w_dom w) = true ->
  exists w', navigateToFiltersSettings w = (Ok tt, w') /\ w_now w' = (w_now w + 1200)%Z.
Proof.
  intros Hp Hd. unfold navigateToFiltersSettings. unfold bind at 1.
  unfold set_hash, bind, emit, modify_dom. cbn beta iota.
  cbn [nav_loop]. unfold bind at 1, sleep. cbn beta iota.
  unfold bind at 1, get_dom. cbn [w_dom].
  assert (E : d_settings (host_advance 200 (with_frag (w_dom w) (frag_of_hash "settings/filters"))) = true).
  { apply Hp. exact Hd. }
  rewrite E. eexists; split; [reflexivity|]. cbn [w_now]. lia.
Qed.

(** C2 (counterexample).  With the predicate already true when the wait
    starts, neither polling wait resolves before its interval timer first
    fires: waitForLabels resolves 100 ms after the call (one full
    interval) and navigateToFiltersSettings 1200 ms after it. *)
Lemma polling_waits_full_interval :
  @waitForLabels static_host 5000 world_form =
  (Ok tt, {| w_dom := page_form; w_now := 100; w_log := [] |}) /\
  fst (@navigateToFiltersSettings static_host world_form) = Ok tt /\
  w_now (snd (@navigateToFiltersSettings static_host world_form)) = 1200%Z.
Proof. vm_compute. repeat split. Qed.

(** C2 (amended).  The polling waits first evaluate their predicate when
    the interval timer first fires.  waitForLabels: with labels present
    throughout, it resolves exactly one interval (100 ms) after the call;
    with labels never present and [timeout >= 0], it rejects with the
    timeout error at the first check after [timeout] elapsed, strictly
    after [timeout] ms and no later than [timeout + 100] ms.
    navigateToFiltersSettings: with the settings marker present throughout
    it resolves 1200 ms after the call (a 200 ms interval plus the 1000 ms
    settle delay); with the marker never present it resolves normally, with
    no timeout signal, exactly 10000 ms after the call. *)
Theorem polling_waits_timing {H : Host} (t : Z) (w : world) :
  ((forall ms d, d_labels d <> [] -> d_labels (host_advance ms d) <> []) ->
   d_labels (w_dom w) <> [] ->
   exists w', waitForLabels t w = (Ok tt, w') /\ w_now w' = (w_now w + 100)%Z) /\
  ((forall ms d, d_labels d = [] -> d_labels (host_advance ms d) = []) ->
   d_labels (w_dom w) = [] -> (0 <= t)%Z ->
   exists w', waitForLabels t w = (Err "Timeout waiting for form labels", w') /\
              (t < w_now w' - w_now w <= t + 100)%Z) /\
  ((forall ms d, d_settings d = true -> d_settings (host_advance ms d) = true) ->
   d_settings (w_dom w) = true ->
   exists w', navigateToFiltersSettings w = (Ok tt, w') /\ w_now w' = (w_now w + 1200)%Z) /\
  ((forall ms d, d_settings d = false -> d_settings (host_advance ms d) = false) ->
   d_settings (w_dom w) = false ->
   exists w', navigateToFiltersSettings w = (Ok tt, w') /\ w_now w' = (w_now w + 10000)%Z).
Proof.
  split; [|split; [|split]].
  - intros Hp Hd. rewrite (waitForLabels_always t w Hp Hd). eexists; split; reflexivity.
  - intros Hp Hd Ht. destruct (waitForLabels_never t w Hp Hd Ht) as (w' & E & _ & Hb).
    exists w'. split; assumption.
  - apply navigate_always.
  - apply navigate_never.
Qed.

Lemma polling_waits_timing_witness :
  (exists w', @waitForLabels static_host 5000 world_form = (Ok tt, w') /\ w_now w' = 100%Z) /\
  (exists w', @waitForLabels static_host 5000 world_blank =
              (Err "Timeout waiting for form labels", w') /\
              (5000 < w_now w' - 0 <= 5000 + 100)%Z) /\
  (exists w', @navigateToFiltersSettings static_host world_form = (Ok tt, w') /\
              w_now w' = 1200%Z) /\
  (exists w', @navigateToFiltersSettings static_host world_blank = (Ok tt, w') /\
              w_now w' = 10000%Z).
Proof.
  split; [|split; [|split]].
  - apply (proj1 (@polling_waits_timing static_host 5000 world_form)).
    + intros ms d Hd. exact Hd.
    + discriminate.
  - apply (proj1 (proj2 (@polling_waits_timing static_host 5000 world_blank))).
    + intros ms d Hd. exact Hd.
    + reflexivity.
    + lia.
  - apply (proj1 (proj2 (proj2 (@polling_waits_timing static_host 5000 world_form)))).
    + intros ms d Hd. exact Hd.
    + reflexivity.
  - apply (proj2 (proj2 (proj2 (@polling_waits_timing static_host 5000 world_blank)))).
    + intros ms d Hd. exact Hd.
    + reflexivity.
Defined.

(** ** Claim C5 *)

Lemma method1_valid n e : method1 n = Some e -> validateEmail e = true.
Proof.
  unfold method1. destruct (querySelector sel_email n) as [el|]; [|discriminate].
  destruct (getAttribute_email el) as [a|]; [|discriminate].
  destruct (truthy a && validateEmail a) eqn:V; [|discriminate].
  intros E; inversion E; subst. apply andb_prop in V. apply V.
Qed.

Lemma method2_valid n e : method2 n = Some e -> validateEmail e = true.
Proof.
  unfold method2. destruct (getAttribute_email n) as [a|]; [|discriminate].
  destruct (truthy a && validateEmail a) eqn:V; [|discriminate].
  intros E; inversion E; subst. apply andb_prop in V. apply V.
Qed.

Lemma method3_valid n e : method3 n = Some e -> validateEmail e = true.
Proof.
  unfold method3. destruct (querySelector sel_sender n) as [el|]; [|discriminate].
  cbv zeta.
  destruct (truthy (extractEmailAddress (textContent el)) &&
            validateEmail (extractEmailAddress (textContent el))) eqn:V; [|discriminate].
  intros E; inversion E; subst. apply andb_prop in V. apply V.
Qed.

Lemma try_level_valid n e : try_level n = Some e -> validateEmail e = true.
Proof.
  unfold try_level. destruct (method1 n) eqn:E1.
  - intros E; inversion E; subst. eapply method1_valid; eauto.
  - destruct (method2 n) eqn:E2.
    + intros E; inversion E; subst. eapply method2_valid; eauto.
    + apply method3_valid.
Qed.

Lemma walk_up_firstn i chain :
  walk_up i chain = walk_up i (firstn (15 - i) chain).
Proof.
  revert i. induction chain as [|n r IH]; intros i; [destruct (15 - i)%nat; reflexivity|].
  simpl walk_up at 1. destruct (i <? 15)%nat eqn:Hi.
  - apply Nat.ltb_lt in Hi. replace (15 - i)%nat with (S (15 - S i)) by lia.
    simpl. apply Nat.ltb_lt in Hi. rewrite Hi.
    destruct (try_level n); [reflexivity|]. apply IH.
  - apply Nat.ltb_ge in Hi. replace (15 - i)%nat with 0%nat by lia. reflexivity.
Qed.

Lemma walk_up_some i chain e :
  walk_up i chain = Some e ->
  exists k n, (i + k < 15)%nat /\ nth_error chain k = Some n /\ try_level n = Some e /\
    forall j n', (j < k)%nat -> nth_error chain j = Some n' -> try_level n' = None.
Proof.
  revert i. induction chain as [|n r IH]; intros i; simpl; [discriminate|].
  destruct (i <? 15)%nat eqn:Hi; [|discriminate]. apply Nat.ltb_lt in Hi.
  destruct (try_level n) as [e'|] eqn:Hn.
  - intros E; inversion E; subst. exists 0%nat, n. repeat split; [lia|exact Hn|].
    intros j n' Hj. lia.
  - intros E. destruct (IH (S i) E) as (k & n0 & Hk & Hnth & Hl & Hbefore).
    exists (S k), n0. repeat split; [lia|exact Hnth|exact Hl|].
    intros [|j] n' Hj Hj'; simpl in Hj'.
    + inversion Hj'; subst. exact Hn.
    + apply (Hbefore j n'); [lia|exact Hj'].
Qed.

Lemma walk_up_none i chain :
  walk_up i chain = None <->
  forall k n, (i + k < 15)%nat -> nth_error chain k = Some n -> try_level n = None.
Proof.
  revert i. induction chain as [|n r IH]; intros i; simpl.
  - split; [|reflexivity]. intros _ [|k] n _ H; discriminate.
  - destruct (i <? 15)%nat eqn:Hi.
    + apply Nat.ltb_lt in Hi. destruct (try_level n) as [e|] eqn:Hn.
      * split; [discriminate|]. intros Hall. rewrite (Hall 0%nat n) in Hn; [discriminate|lia|reflexivity].
      * rewrite IH. split.
        -- intros Hr [|k] n' Hk Hnth; simpl in Hnth.
           ++ inversion Hnth; subst. exact Hn.
           ++ apply (Hr k); [lia|exact Hnth].
        -- intros Hall k n' Hk Hnth. apply (Hall (S k)); [lia|exact Hnth].
    + apply Nat.ltb_ge in Hi. split; [intros _ k n' Hk; lia|reflexivity].
Qed.

(** C5.  extractSenderFromElement looks at no more than 15 levels (the
    clicked element and 14 ancestors): its result is the same on the chain
    cut to 15 levels.  At each level it tries, in order, the first
    descendant's [email] attribute, the level's own [email] attribute and
    the parsed text of the first sender-display descendant.  A result is a
    validated address found at some level [k < 15], and no earlier level
    yields one; the result is [null] exactly when no level within the bound
    yields a validated address. *)
Theorem extractSenderFromElement_spec (chain : list node) :
  extractSenderFromElement chain = extractSenderFromElement (firstn 15 chain) /\
  (forall n, try_level n =
     match method1 n with
     | Some e => Some e
     | None => match method2 n with Some e => Some e | None => method3 n end
     end) /\
  (forall e, extractSenderFromElement chain = Some e ->
     validateEmail e = true /\
     exists k n, (k < 15)%nat /\ nth_error chain k = Some n /\ try_level n = Some e /\
       forall j n', (j < k)%nat -> nth_error chain j = Some n' -> try_level n' = None) /\
  (extractSenderFromElement chain = None <->
   forall k n, (k < 15)%nat -> nth_error chain k = Some n -> try_level n = None).
Proof.
  unfold extractSenderFromElement. split; [|split; [|split]].
  - rewrite walk_up_firstn at 1. rewrite (walk_up_firstn 0 (firstn 15 chain)).
    rewrite firstn_firstn. reflexivity.
  - intros n. reflexivity.
  - intros e E. destruct (walk_up_some 0 chain e E) as (k & n & Hk & Hn & Hl & Hb).
    split; [eapply try_level_valid; eauto|]. exists k, n. repeat split; assumption.
  - apply walk_up_none.
Qed.

Lemma extractSenderFromElement_spec_witness :
  extractSenderFromElement chain_deep = None /\
  extractSenderFromElement (skipn 1 chain_deep) = Some "jane@example.com"%string /\
  validateEmail "jane@example.com" = true /\
  exists k n, (k < 15)%nat /\ nth_error (skipn 1 chain_deep) k = Some n /\
    try_level n = Some "jane@example.com"%string /\
    forall j n', (j < k)%nat -> nth_error (skipn 1 chain_deep) j = Some n' -> try_level n' = None.
Proof.
  split; [reflexivity|]. split; [reflexivity|].
  apply (proj1 (proj2 (proj2 (extractSenderFromElement_spec (skipn 1 chain_deep))))).
  reflexivity.
Defined.

(** ** Claim C10 *)

Lemma take_drop_while p l : take_while p l ++ drop_while p l = l.
Proof. induction l as [|c l IH]; simpl; [reflexivity|]. destruct (p c); simpl; congruence. Qed.

Lemma take_while_all p l : forallb p (take_while p l) = true.
Proof. induction l as [|c l IH]; simpl; [reflexivity|]. destruct (p c) eqn:E; simpl; auto. now rewrite E. Qed.

Lemma drop_while_head p l d r : drop_while p l = d :: r -> p d = false.
Proof.
  induction l as [|c l IH]; simpl; [discriminate|].
  destruct (p c) eqn:E; [exact IH|]. intros H0; inversion H0; subst; exact E.
Qed.

Lemma take_while_app_stop p l d r :
  forallb p l = true -> p d = false ->
  take_while p (l ++ d :: r) = l /\ drop_while p (l ++ d :: r) = d :: r.
Proof.
  intros Hl Hd. induction l as [|c l IH]; simpl.
  - rewrite Hd. split; reflexivity.
  - simpl in Hl. apply andb_prop in Hl. destruct Hl as [Hc Hl]. rewrite Hc.
    destruct (IH Hl) as [E1 E2]. rewrite E1, E2. split; reflexivity.
Qed.

Lemma not_gt_gt : not_gt c_gt = false.
Proof. reflexivity. Qed.

Lemma angle_match_sound s b :
  angle_match s = Some b ->
  exists pre post, s = pre ++ c_lt :: b ++ c_gt :: post /\ b <> [] /\ forallb not_gt b = true.
Proof.
  induction s as [|c s IH]; simpl; [discriminate|].
  assert (Hrec : angle_match s = Some b ->
                 exists pre post, c :: s = pre ++ c_lt :: b ++ c_gt :: post /\
                                  b <> [] /\ forallb not_gt b = true).
  { intros E. destruct (IH E) as (pre & post & -> & Hb & Hf). exists (c :: pre), post. auto. }
  destruct (eqa c c_lt) eqn:Ec; [|exact Hrec].
  destruct (take_while not_gt s) as [|x xs] eqn:Et; [exact Hrec|].
  destruct (drop_while not_gt s) as [|d r] eqn:Ed; [exact Hrec|].
  intros E. inversion E; subst b.
  assert (Hd : not_gt d = false) by (eapply drop_while_head; eauto).
  unfold not_gt, eqa in Hd. apply negb_false_iff, Ascii.eqb_eq in Hd. subst d.
  unfold eqa in Ec. apply Ascii.eqb_eq in Ec. subst c.
  exists [], r. simpl. split.
  - rewrite <- (take_drop_while not_gt s), Et, Ed. reflexivity.
  - split; [discriminate|]. pose proof (take_while_all not_gt s) as Ha.
    rewrite Et in Ha. exact Ha.
Qed.

Lemma angle_match_complete pre c post :
  c <> [] -> forallb not_gt c = true ->
  angle_match (pre ++ c_lt :: c ++ c_gt :: post) <> None.
Proof.
  intros Hc Hf. induction pre as [|a pre IH]; simpl.
  - destruct (take_while_app_stop not_gt c c_gt post Hf not_gt_gt) as [E1 E2].
    rewrite E1, E2. destruct c; [contradiction|]. discriminate.
  - destruct (eqa a c_lt); [|exact IH].
    destruct (take_while not_gt _) as [|x xs]; [exact IH|].
    destruct (drop_while not_gt _) as [|d r]; [exact IH|]. discriminate.
Qed.

(** C10.  Whenever the text contains an angle-bracket segment [<c>]
    ([c] non-empty, without ['>']), extractEmailAddress returns the contents
    of such a segment (the leftmost one the regexp finds), unvalidated,
    whatever the bare-address scan would have found; if those contents fail
    validation, the parsing step yields no validated address.  On the
    sender text ["x <bad> good@a.com"] the level yields nothing, although the
    bare address in it is valid. *)
Theorem extractEmailAddress_angle_first (pre c post : chars)
    (Hc : c <> []) (Hf : forallb not_gt c = true) :
  (exists pre' c' post',
     pre ++ c_lt :: c ++ c_gt :: post = pre' ++ c_lt :: c' ++ c_gt :: post' /\
     c' <> [] /\ forallb not_gt c' = true /\
     angle_match (pre ++ c_lt :: c ++ c_gt :: post) = Some c' /\
     extractEmailAddress (string_of_list_ascii (pre ++ c_lt :: c ++ c_gt :: post)) =
       string_of_list_ascii c' /\
     (validateEmail (string_of_list_ascii c') = false ->
      validateEmail (extractEmailAddress (string_of_list_ascii (pre ++ c_lt :: c ++ c_gt :: post)))
        = false)) /\
  (extractEmailAddress "x <bad> good@a.com" = "bad"%string /\
   validateEmail "good@a.com" = true /\
   try_level level_bad_bracket = None).
Proof.
  split; [|split; [reflexivity|split; reflexivity]].
  set (s := pre ++ c_lt :: c ++ c_gt :: post).
  destruct (angle_match s) as [c'|] eqn:E.
  2:{ exfalso. exact (angle_match_complete pre c post Hc Hf E). }
  destruct (angle_match_sound s c' E) as (pre' & post' & Es & Hc' & Hf').
  assert (Ex : extractEmailAddress (string_of_list_ascii s) = string_of_list_ascii c').
  { unfold extractEmailAddress, extract_chars.
    rewrite list_ascii_of_string_of_list_ascii, E. reflexivity. }
  exists pre', c', post'. repeat split; try assumption.
  intros Hv. rewrite Ex. exact Hv.
Qed.

Lemma extractEmailAddress_angle_first_witness :
  exists pre' c' post',
    list_ascii_of_string "x <bad> good@a.com" = pre' ++ c_lt :: c' ++ c_gt :: post' /\
    c' <> [] /\ forallb not_gt c' = true /\
    angle_match (list_ascii_of_string "x <bad> good@a.com") = Some c' /\
    extractEmailAddress (string_of_list_ascii (list_ascii_of_string "x <bad> good@a.com")) =
      string_of_list_ascii c' /\
    (validateEmail (string_of_list_ascii c') = false ->
     validateEmail (extractEmailAddress
        (string_of_list_ascii (list_ascii_of_string "x <bad> good@a.com"))) = false).
Proof.
  apply (proj1 (extractEmailAddress_angle_first (list_ascii_of_string "x ")
                  (list_ascii_of_string "bad") (list_ascii_of_string " good@a.com")
                  ltac:(discriminate) ltac:(reflexivity))).
Defined.

(** ** Claim C4 *)

Lemma wdd_ns c : is_wdd c = true -> ns c = true.
Proof. destruct c as [[] [] [] [] [] [] [] []]; vm_compute; congruence. Qed.

Lemma word_wdd c : is_word c = true -> is_wdd c = true.
Proof. destruct c as [[] [] [] [] [] [] [] []]; vm_compute; congruence. Qed.

Lemma ns_not_at c : ns c = true -> eqa c c_at = false.
Proof. unfold ns. intros H0. apply andb_prop in H0. destruct H0 as [_ H0]. now apply negb_true_iff. Qed.

Lemma ns_not_space c : ns c = true -> is_space c = false.
Proof. unfold ns. intros H0. apply andb_prop in H0. destruct H0 as [H0 _]. now apply negb_true_iff. Qed.

Lemma forallb_impl (p q : ascii -> bool) l :
  (forall c, p c = true -> q c = true) -> forallb p l = true -> forallb q l = true.
Proof.
  intros Hpq. induction l as [|c l IH]; simpl; [reflexivity|].
  intros H0. apply andb_prop in H0. destruct H0 as [H1 H2]. rewrite (Hpq c H1). simpl. auto.
Qed.

Lemma split_at_sign_app l b :
  forallb (fun c => negb (eqa c c_at)) l = true ->
  split_at_sign (l ++ c_at :: b) = Some (l, b).
Proof.
  induction l as [|c l IH]; simpl; intros H0.
  - reflexivity.
  - apply andb_prop in H0. destruct H0 as [Hc Hl]. apply negb_true_iff in Hc. rewrite Hc.
    rewrite (IH Hl). reflexivity.
Qed.

Lemma split_at_sign_sound s l b : split_at_sign s = Some (l, b) -> s = l ++ c_at :: b.
Proof.
  revert l. induction s as [|c s IH]; simpl; intros l; [discriminate|].
  destruct (eqa c c_at) eqn:Ec.
  - intros E; inversion E; subst. unfold eqa in Ec. apply Ascii.eqb_eq in Ec. subst. reflexivity.
  - destruct (split_at_sign s) as [[l' r]|] eqn:Es; [|discriminate].
    intros E; inversion E; subst. rewrite (IH l' eq_refl). reflexivity.
Qed.

Lemma split_at_sign_none s : ~ In c_at s -> split_at_sign s = None.
Proof.
  induction s as [|c s IH]; simpl; intros Hn; [reflexivity|].
  destruct (eqa c c_at) eqn:Ec.
  - exfalso. apply Hn. left. unfold eqa in Ec. now apply Ascii.eqb_eq in Ec.
  - rewrite IH; [reflexivity|]. intros Hi. apply Hn. now right.
Qed.

Lemma validate_no_at s : ~ In c_at s -> validate_chars s = false.
Proof. intros Hn. unfold validate_chars. now rewrite split_at_sign_none. Qed.

Lemma dot_split_spec (q : ascii -> bool) pre l p t :
  dot_split pre l = Some (p, t) -> forallb q pre = true -> forallb q l = true ->
  forallb q p = true /\ p <> [] /\ exists d t', t = d :: t' /\ is_word d = true.
Proof.
  revert pre. induction l as [|c rest IH]; intros pre; simpl; [discriminate|].
  destruct rest as [|d r]; [discriminate|].
  intros E Hpre Hl. apply andb_prop in Hl. destruct Hl as [Hc Hrest].
  destruct (dot_split (pre ++ [c]) (d :: r)) as [[p' t']|] eqn:Er.
  - inversion E; subst. apply (IH (pre ++ [c]) Er); [|exact Hrest].
    rewrite forallb_app, Hpre. simpl. now rewrite Hc.
  - destruct (eqa c c_dot && is_word d && negb (forallb (fun _ => false) pre)) eqn:Ec;
      [|discriminate].
    inversion E; subst. apply andb_prop in Ec. destruct Ec as [Ec Hne].
    apply andb_prop in Ec. destruct Ec as [_ Hd].
    split; [exact Hpre|]. split.
    + intros ->. discriminate.
    + exists d, r. split; [reflexivity|exact Hd].
Qed.

Lemma take_while_sub p l : forall x, In x (take_while p l) -> p x = true.
Proof.
  intros x. pose proof (take_while_all p l) as Ha. rewrite forallb_forall in Ha. apply Ha.
Qed.

Lemma bare_match_at_valid s m : bare_match_at s = Some m -> validate_chars m = true.
Proof.
  unfold bare_match_at.
  destruct (take_while is_wdd s) as [|x xs] eqn:Et; [discriminate|].
  destruct (drop_while is_wdd s) as [|a r2]; [discriminate|].
  destruct (eqa a c_at); [|discriminate].
  destruct (dot_split [] (take_while is_wdd r2)) as [[p t]|] eqn:Ed; [|discriminate].
  intros E; inversion E; subst m. clear E.
  destruct (dot_split_spec is_wdd [] _ p t Ed eq_refl (take_while_all _ _))
    as (Hp & Hpne & d & t' & -> & Hd).
  assert (Hloc : forallb is_wdd (x :: xs) = true) by (rewrite <- Et; apply take_while_all).
  unfold validate_chars. rewrite app_comm_cons, split_at_sign_app.
  2:{ apply (forallb_impl is_wdd); [|exact Hloc]. intros c Hc. now rewrite (ns_not_at c (wdd_ns c Hc)). }
  rewrite (forallb_impl is_wdd ns _ wdd_ns Hloc).
  assert (Hw : forallb is_word (take_while is_word (d :: t')) = true) by apply take_while_all.
  assert (Hwne : take_while is_word (d :: t') <> []) by (simpl; rewrite Hd; discriminate).
  revert Hw Hwne. generalize (take_while is_word (d :: t')). intros w Hw Hwne.
  unfold domain_ok. rewrite forallb_app. rewrite (forallb_impl is_wdd ns _ wdd_ns Hp).
  change (forallb ns (c_dot :: w)) with (ns c_dot && forallb ns w).
  rewrite (forallb_impl is_word ns _ (fun c h => wdd_ns c (word_wdd c h)) Hw).
  destruct p as [|p0 p']; [contradiction|]. simpl app.
  replace (p' ++ c_dot :: w) with ((p' ++ [c_dot]) ++ w) by (rewrite <- app_assoc; reflexivity).
  rewrite removelast_app by exact Hwne. rewrite existsb_app, existsb_app. simpl.
  rewrite orb_true_r. reflexivity.
Qed.

Lemma bare_match_valid s m : bare_match s = Some m -> validate_chars m = true.
Proof.
  induction s as [|c s IH]; simpl.
  - unfold bare_match_at. simpl. discriminate.
  - destruct (bare_match_at (c :: s)) as [m'|] eqn:E.
    + intros H0; inversion H0; subst. eapply bare_match_at_valid; eauto.
    + exact IH.
Qed.

Lemma drop_while_in p l a r : drop_while p l = a :: r -> In a l.
Proof.
  induction l as [|c l IH]; simpl; [discriminate|].
  destruct (p c); [intros E; right; auto|intros E; inversion E; subst; now left].
Qed.

Lemma bare_match_at_has_at s m : bare_match_at s = Some m -> In c_at s.
Proof.
  unfold bare_match_at.
  destruct (take_while is_wdd s) as [|x xs]; [discriminate|].
  destruct (drop_while is_wdd s) as [|a r2] eqn:Ed; [discriminate|].
  destruct (eqa a c_at) eqn:Ea; [|discriminate]. intros _.
  unfold eqa in Ea. apply Ascii.eqb_eq in Ea. subst a. eapply drop_while_in; eauto.
Qed.

Lemma bare_match_has_at s m : bare_match s = Some m -> In c_at s.
Proof.
  induction s as [|c s IH]; simpl.
  - unfold bare_match_at. simpl. discriminate.
  - destruct (bare_match_at (c :: s)) as [m'|] eqn:E.
    + intros _. exact (bare_match_at_has_at (c :: s) m' E).
    + intros H0. right. auto.
Qed.

Lemma drop_spaces_in x s : In x (drop_spaces s) -> In x s.
Proof.
  induction s as [|c s IH]; simpl; [auto|]. destruct (is_space c); [intros H0; right; auto|auto].
Qed.

Lemma triml_in x s : In x (triml s) -> In x s.
Proof.
  unfold triml. intros H0. apply in_rev in H0. apply drop_spaces_in in H0.
  apply in_rev in H0. apply drop_spaces_in in H0. exact H0.
Qed.

Lemma drop_spaces_id s : forallb (fun c => negb (is_space c)) s = true -> drop_spaces s = s.
Proof.
  destruct s as [|c s]; simpl; [reflexivity|]. intros H0. apply andb_prop in H0.
  destruct H0 as [Hc _]. apply negb_true_iff in Hc. rewrite Hc. reflexivity.
Qed.

Lemma triml_id s : forallb (fun c => negb (is_space c)) s = true -> triml s = s.
Proof.
  intros H0. unfold triml. rewrite (drop_spaces_id s H0).
  rewrite drop_spaces_id; [apply rev_involutive|].
  apply forallb_forall. intros x Hx. apply in_rev in Hx.
  rewrite forallb_forall in H0. apply H0. exact Hx.
Qed.

Lemma validate_no_space s :
  validate_chars s = true -> forallb (fun c => negb (is_space c)) s = true.
Proof.
  unfold validate_chars. destruct (split_at_sign s) as [[l b]|] eqn:E; [|discriminate].
  rewrite (split_at_sign_sound s l b E).
  intros H0. apply andb_prop in H0. destruct H0 as [H0 Hb]. apply andb_prop in H0.
  destruct H0 as [_ Hl]. unfold domain_ok in Hb. apply andb_prop in Hb. destruct Hb as [Hb _].
  rewrite forallb_app. simpl.
  rewrite (forallb_impl ns _ l (fun c h => proj2 (negb_true_iff _) (ns_not_space c h)) Hl).
  rewrite (forallb_impl ns _ b (fun c h => proj2 (negb_true_iff _) (ns_not_space c h)) Hb).
  reflexivity.
Qed.

Lemma angle_match_skip pre s :
  ~ In c_lt pre -> angle_match (pre ++ s) = angle_match s.
Proof.
  induction pre as [|c pre IH]; simpl; intros Hn; [reflexivity|].
  destruct (eqa c c_lt) eqn:Ec.
  - exfalso. apply Hn. left. unfold eqa in Ec. now apply Ascii.eqb_eq in Ec.
  - apply IH. intros Hi. apply Hn. now right.
Qed.

Lemma validateEmail_chars s : validateEmail (string_of_list_ascii s) = validate_chars s.
Proof. unfold validateEmail. now rewrite list_ascii_of_string_of_list_ascii. Qed.

Lemma extractEmailAddress_chars s :
  extractEmailAddress (string_of_list_ascii s) = string_of_list_ascii (extract_chars s).
Proof. unfold extractEmailAddress. now rewrite list_ascii_of_string_of_list_ascii. Qed.

Lemma forallb_not_in (p : ascii -> bool) a l :
  p a = false -> forallb p l = true -> ~ In a l.
Proof. intros Ha Hl Hi. rewrite forallb_forall in Hl. rewrite (Hl a Hi) in Ha. discriminate. Qed.

Lemma not_in_forallb_gt l : ~ In c_gt l -> forallb not_gt l = true.
Proof.
  intros Hn. apply forallb_forall. intros x Hx. unfold not_gt, eqa.
  apply negb_true_iff. apply Ascii.eqb_neq. intros ->. contradiction.
Qed.

(** C4 (counterexample).  Some addresses that pass validateEmail but
    contain angle brackets are not recovered: in ["Jane <a>b@c.d>"] the bracket
    regexp stops at the first ['>'] and yields ["a"]; the bare text
    ["<x>@b.c"] contains the segment ["<x>"] and yields ["x"].  Neither
    result passes validation. *)
Lemma sender_text_parsing_bracket_addresses :
  validateEmail "a>b@c.d" = true /\
  extractEmailAddress "Jane <a>b@c.d>" = "a"%string /\ validateEmail "a" = false /\
  validateEmail "<x>@b.c" = true /\
  extractEmailAddress "<x>@b.c" = "x"%string /\ validateEmail "x" = false.
Proof. repeat split; reflexivity. Qed.

(** C4 (amended).  For the text [name <addr>] where [addr] passes
    validateEmail and has no ['>'] and [name] has no ['<'],
    extractEmailAddress returns [addr], which passes validation.  For a
    bare [addr] passing validateEmail and containing no angle-bracket
    segment, the parsing step yields an address passing validation (the
    bare-pattern match or [addr] itself).  For a text without ['@'] the
    parsing step yields no validated address. *)
Theorem sender_text_parsing (name addr s : chars) :
  (validateEmail (string_of_list_ascii addr) = true -> ~ In c_lt name -> ~ In c_gt addr ->
   extractEmailAddress (string_of_list_ascii (name ++ ch 32 :: c_lt :: addr ++ [c_gt])) =
     string_of_list_ascii addr /\
   validateEmail (extractEmailAddress
     (string_of_list_ascii (name ++ ch 32 :: c_lt :: addr ++ [c_gt]))) = true) /\
  (validateEmail (string_of_list_ascii addr) = true -> angle_match addr = None ->
   validateEmail (extractEmailAddress (string_of_list_ascii addr)) = true) /\
  (~ In c_at s -> validateEmail (extractEmailAddress (string_of_list_ascii s)) = false).
Proof.
  rewrite !extractEmailAddress_chars, !validateEmail_chars.
  split; [|split].
  - intros Hv Hn Hg.
    assert (Ha : angle_match (name ++ ch 32 :: c_lt :: addr ++ [c_gt]) = Some addr).
    { replace (name ++ ch 32 :: c_lt :: addr ++ [c_gt])
        with ((name ++ [ch 32]) ++ c_lt :: addr ++ [c_gt]) by (rewrite <- app_assoc; reflexivity).
      rewrite angle_match_skip.
      2:{ intros Hi. apply in_app_or in Hi. destruct Hi as [Hi|[Hi|[]]]; [contradiction|discriminate]. }
      simpl. destruct (take_while_app_stop not_gt addr c_gt [] (not_in_forallb_gt addr Hg) not_gt_gt)
        as [E1 E2].
      rewrite E1, E2. destruct addr as [|a0 addr']; [discriminate|reflexivity]. }
    unfold extract_chars. rewrite Ha. split; [reflexivity|].
    exact Hv.
  - intros Hv Ha. unfold extract_chars. rewrite Ha.
    destruct (bare_match addr) as [m|] eqn:Eb.
    + eapply bare_match_valid; eauto.
    + rewrite triml_id by (apply validate_no_space; exact Hv).
      exact Hv.
  - intros Hn. apply validate_no_at.
    unfold extract_chars. destruct (angle_match s) as [b|] eqn:Ea.
    + destruct (angle_match_sound s b Ea) as (pre & post & -> & _ & _).
      intros Hi. apply Hn. apply in_or_app. right. right. apply in_or_app. now left.
    + destruct (bare_match s) as [m|] eqn:Eb.
      * exfalso. apply Hn. eapply bare_match_has_at; eauto.
      * intros Hi. apply Hn. eapply triml_in; eauto.
Qed.

Lemma sender_text_parsing_witness :
  (extractEmailAddress (string_of_list_ascii (list_ascii_of_string "Jane Doe" ++
      ch 32 :: c_lt :: list_ascii_of_string "jane@example.com" ++ [c_gt])) =
     string_of_list_ascii (list_ascii_of_string "jane@example.com") /\
   validateEmail (extractEmailAddress (string_of_list_ascii (list_ascii_of_string "Jane Doe" ++
      ch 32 :: c_lt :: list_ascii_of_string "jane@example.com" ++ [c_gt]))) = true) /\
  validateEmail (extractEmailAddress (string_of_list_ascii (list_ascii_of_string "jane@example.com")))
    = true /\
  validateEmail (extractEmailAddress (string_of_list_ascii (list_ascii_of_string "no address")))
    = false.
Proof.
  destruct (sender_text_parsing (list_ascii_of_string "Jane Doe")
              (list_ascii_of_string "jane@example.com") (list_ascii_of_string "no address"))
    as (P1 & P2 & P3).
  split; [|split].
  - apply P1; [reflexivity| |]; simpl; intuition discriminate.
  - apply P2; reflexivity.
  - apply P3. simpl. intuition discriminate.
Defined.

(** *** The From input across writes; rule edits under [settings_host] *)

Lemma getElementById_set x id v d :
  getElementById x (with_inputs d (set_value_in id v (d_inputs d))) =
  if String.eqb x id then option_map (fun j => upd_value j v) (getElementById x d)
  else getElementById x d.
Proof.
  unfold getElementById. simpl. induction (d_inputs d) as [|i l IH]; simpl.
  - destruct (String.eqb x id); reflexivity.
  - destruct (String.eqb (in_id i) id) eqn:E1; simpl.
    + apply String.eqb_eq in E1. subst id.
      destruct (String.eqb (in_id i) x) eqn:E2.
      * apply String.eqb_eq in E2. subst x. rewrite String.eqb_refl. reflexivity.
      * destruct (String.eqb x (in_id i)) eqn:E3; [|reflexivity].
        apply String.eqb_eq in E3. subst x. rewrite String.eqb_refl in E2. discriminate.
    + destruct (String.eqb (in_id i) x) eqn:E2; [|exact IH].
      apply String.eqb_eq in E2. subst x. rewrite E1. reflexivity.
Qed.

Lemma findInputByLabel_set t id v d :
  findInputByLabel t (with_inputs d (set_value_in id v (d_inputs d))) =
  option_map (fun j => if String.eqb (in_id j) id then upd_value j v else j)
    (findInputByLabel t d).
Proof.
  unfold findInputByLabel. simpl.
  destruct (match find_label_exact t (d_labels d) with Some l => Some l
            | None => find_label_ci t (d_labels d) end) as [l|]; [|reflexivity].
  destruct (lb_for l) as [x|]; [|reflexivity].
  destruct (truthy x); [|reflexivity].
  rewrite getElementById_set.
  destruct (getElementById x d) as [j|] eqn:Ej; destruct (String.eqb x id) eqn:Ex; try reflexivity.
  - unfold getElementById in Ej. apply find_some in Ej. destruct Ej as [_ Ej].
    apply String.eqb_eq in Ej. simpl. rewrite Ej, Ex. reflexivity.
  - unfold getElementById in Ej. apply find_some in Ej. destruct Ej as [_ Ej].
    apply String.eqb_eq in Ej. simpl. rewrite Ej, Ex. reflexivity.
Qed.

Lemma prefixb_app p q : prefixb p (p ++ q) = true.
Proof. induction p as [|a p IH]; simpl; [reflexivity|]. unfold eqa. rewrite Ascii.eqb_refl. exact IH. Qed.

Lemma includesl_app_r a b : includesl (a ++ b) b = true.
Proof.
  induction a as [|x a IH]; simpl.
  - destruct b as [|y b]; simpl; [reflexivity|].
    unfold eqa. rewrite Ascii.eqb_refl. rewrite <- (app_nil_r b) at 2. rewrite prefixb_app. reflexivity.
  - rewrite IH. apply orb_true_r.
Qed.

Lemma list_ascii_of_string_append a b :
  list_ascii_of_string (append a b) = list_ascii_of_string a ++ list_ascii_of_string b.
Proof. induction a as [|x a IH]; simpl; [reflexivity|]. rewrite IH. reflexivity. Qed.

Lemma includes_appended cur s : includes (append cur (append sep s)) s = true.
Proof.
  unfold includes. rewrite !list_ascii_of_string_append, app_assoc. apply includesl_app_r.
Qed.

Lemma open_rule_from d i :
  findInputByLabel "From" d = Some i ->
  findInputByLabel "From" (open_rule d) = Some (upd_value i (d_saved_from d)).
Proof.
  intros Hi. unfold open_rule. rewrite Hi, findInputByLabel_set, Hi. simpl.
  rewrite String.eqb_refl. reflexivity.
Qed.

Lemma open_rule_elems d : d_elems (open_rule d) = d_elems d.
Proof. unfold open_rule. destruct (findInputByLabel "From" d); reflexivity. Qed.

Lemma open_rule_saved d : d_saved_from (open_rule d) = d_saved_from d.
Proof. unfold open_rule. destruct (findInputByLabel "From" d); reflexivity. Qed.

Lemma with_saved_from t d v : findInputByLabel t (with_saved d v) = findInputByLabel t d.
Proof. reflexivity. Qed.

Lemma save_rule_from d j :
  findInputByLabel "From" d = Some j -> save_rule d = with_saved d (in_value j).
Proof. intros E. unfold save_rule. rewrite E. reflexivity. Qed.

Lemma buttons_or_spans_elems d d' :
  d_elems d' = d_elems d -> buttons_or_spans d' = buttons_or_spans d.
Proof. intros E. unfold buttons_or_spans. rewrite E. reflexivity. Qed.

Lemma run_present w i s r :
  findInputByLabel "From" (w_dom w) = Some i ->
  includes (d_saved_from (w_dom w)) s = true ->
  exists w', @updateExistingFilter settings_host r s w = (Ok tt, w') /\
    d_saved_from (w_dom w') = d_saved_from (w_dom w) /\
    d_elems (w_dom w') = d_elems (w_dom w) /\
    (exists i', findInputByLabel "From" (w_dom w') = Some i') /\
    w_log w' = match find_text "Cancel" (buttons_or_spans (w_dom w)) with
               | Some c => [EvClick (TElem (el_id c))] | None => [] end
               ++ EvClick (TRow (row_id r)) :: w_log w.
Proof.
  intros Hi Hs.
  unfold updateExistingFilter, bind, click, emit, modify_dom, sleep, get_dom.
  cbn -[open_rule save_rule findInputByLabel find_text includes buttons_or_spans sep].
  pose proof (open_rule_from _ _ Hi) as Ho.
  rewrite Ho. cbn [upd_value in_value]. rewrite Hs.
  cbn -[open_rule save_rule findInputByLabel find_text includes buttons_or_spans sep].
  rewrite (buttons_or_spans_elems (w_dom w) (open_rule (w_dom w)) (open_rule_elems _)).
  destruct (find_text "Cancel" (buttons_or_spans (w_dom w))) as [c|]; cbn.
  - rewrite open_rule_elems.
    destruct (find (fun e => (el_id e =? el_id c)%Z) (d_elems (w_dom w))) as [e|];
      [destruct (includes (el_text e) "Update filter")|];
      [rewrite (save_rule_from _ _ Ho)| |];
      (eexists; split; [reflexivity|]; cbn;
       rewrite ?with_saved_from, ?open_rule_saved, ?open_rule_elems, ?Ho;
       split; [reflexivity|]; split; [reflexivity|]; split; [eauto|reflexivity]).
  - eexists; split; [reflexivity|]. cbn.
    rewrite open_rule_saved, open_rule_elems, Ho. split; [reflexivity|]. split; [reflexivity|]. split; [eauto|reflexivity].
Qed.

Lemma find_elem_id l u :
  NoDup (map el_id l) -> In u l -> List.find (fun e => (el_id e =? el_id u)%Z) l = Some u.
Proof.
  induction l as [|e l IH]; simpl; [contradiction|].
  intros Hnd [<-|Hu]; [rewrite Z.eqb_refl; reflexivity|].
  inversion Hnd as [|? ? Hnin Hnd']; subst.
  destruct (Z.eqb_spec (el_id e) (el_id u)) as [E|E].
  - exfalso. apply Hnin. rewrite E. apply in_map. exact Hu.
  - apply IH; assumption.
Qed.

Lemma find_text_in t d u :
  find_text t (buttons_or_spans d) = Some u -> In u (d_elems d) /\ includes (el_text u) t = true.
Proof.
  unfold find_text, buttons_or_spans. intros E. apply find_some in E. destruct E as [E1 E2].
  apply filter_In in E1. tauto.
Qed.

Lemma run_absent w i s r u :
  findInputByLabel "From" (w_dom w) = Some i ->
  NoDup (map el_id (d_elems (w_dom w))) ->
  find_text "Update filter" (buttons_or_spans (w_dom w)) = Some u ->
  includes (d_saved_from (w_dom w)) s = false ->
  exists w', @updateExistingFilter settings_host r s w = (Ok tt, w') /\
    d_saved_from (w_dom w') = append (d_saved_from (w_dom w)) (append sep s) /\
    d_elems (w_dom w') = d_elems (w_dom w) /\
    (exists i', findInputByLabel "From" (w_dom w') = Some i') /\
    w_log w' = [EvClick (TElem (el_id u)); EvInput (in_id i);
                EvSetValue (in_id i) (append (d_saved_from (w_dom w)) (append sep s));
                EvClick (TRow (row_id r))] ++ w_log w.
Proof.
  intros Hi Hnd Hu Hs.
  unfold updateExistingFilter, bind, click, emit, modify_dom, sleep, get_dom.
  cbn -[open_rule save_rule findInputByLabel find_text includes buttons_or_spans sep].
  pose proof (open_rule_from _ _ Hi) as Ho.
  rewrite Ho. cbn [upd_value in_value in_id]. rewrite Hs.
  cbn -[open_rule save_rule findInputByLabel find_text includes buttons_or_spans sep].
  set (v := append (d_saved_from (w_dom w)) (append sep s)).
  set (d2 := with_inputs (open_rule (w_dom w)) (set_value_in (in_id i) v (d_inputs (open_rule (w_dom w))))).
  assert (He : d_elems d2 = d_elems (w_dom w)) by (unfold d2; cbn; apply open_rule_elems).
  assert (Hf : findInputByLabel "From" d2 = Some (upd_value i v)).
  { unfold d2. rewrite findInputByLabel_set, Ho. cbn. rewrite String.eqb_refl. reflexivity. }
  rewrite (buttons_or_spans_elems (w_dom w) d2 He), Hu.
  cbn -[open_rule save_rule findInputByLabel find_text includes buttons_or_spans sep].
  destruct (find_text_in _ _ _ Hu) as [Hin Ht].
  rewrite open_rule_elems, (find_elem_id _ _ Hnd Hin), Ht, (save_rule_from _ _ Hf).
  eexists; split; [reflexivity|]. cbn.
  rewrite with_saved_from, Hf. split; [reflexivity|]. split; [exact He|]. split; [eauto|reflexivity].
Qed.

(** C9 (counterexample): the stored From criterion is [old@example.com]
    and no Update affordance is rendered: the From input is written and the
    change notified, the run succeeds, and no update affordance is clicked. *)
Lemma updateExistingFilter_no_update_button :
  fst (@updateExistingFilter settings_host rule_row "jane@example.com" world_rule_bare) = Ok tt /\
  w_log (snd (@updateExistingFilter settings_host rule_row "jane@example.com" world_rule_bare)) =
    [EvInput "from"; EvSetValue "from" "old@example.com | jane@example.com"; EvClick (TRow 1)].
Proof. vm_compute. split; reflexivity. Qed.

(** C9 (amended): when the From input found after opening the rule holds
    [old@example.com], the update path writes
    [old@example.com | jane@example.com] to it, dispatches one input event,
    and clicks the Update affordance once if one is rendered after the
    500 ms settle, and not at all otherwise; the run succeeds in both cases. *)
Theorem updateExistingFilter_appends {H : Host} (r : row) (w : world) (fromInput : input)
  (Hfrom : findInputByLabel "From" (host_advance 1000 (host_click (TRow (row_id r)) (w_dom w)))
           = Some fromInput)
  (Hold : in_value fromInput = "old@example.com"%string) :
  let d1 := host_advance 1000 (host_click (TRow (row_id r)) (w_dom w)) in
  let v := "old@example.com | jane@example.com"%string in
  let d2 := with_inputs d1 (set_value_in (in_id fromInput) v (d_inputs d1)) in
  findInputByLabel "From" d2 = Some (upd_value fromInput v) /\
  exists w', updateExistingFilter r "jane@example.com" w = (Ok tt, w') /\
    w_log w' =
      match find_text "Update filter" (buttons_or_spans (host_advance 500 d2)) with
      | Some u => [EvClick (TElem (el_id u))]
      | None => []
      end ++
      [EvInput (in_id fromInput); EvSetValue (in_id fromInput) v; EvClick (TRow (row_id r))]
      ++ w_log w.
Proof.
  intros d1 v d2. split.
  - unfold d2. rewrite findInputByLabel_set. unfold d1. rewrite Hfrom. simpl.
    rewrite String.eqb_refl. reflexivity.
  - unfold updateExistingFilter, bind, click, emit, modify_dom, sleep, get_dom. simpl.
    unfold d2, v, d1 in *. clear d1 v d2.
    rewrite Hfrom, Hold. cbn [includes]. simpl.
    destruct (find_text _ _) as [u|]; eexists; split; reflexivity.
Qed.


Lemma updateExistingFilter_appends_witness :
  findInputByLabel "From"
    (@host_advance settings_host 1000 (@host_click settings_host (TRow (row_id rule_row)) (w_dom world_rule)))
    = Some from_old /\
  in_value from_old = "old@example.com"%string /\
  exists w', @updateExistingFilter settings_host rule_row "jane@example.com" world_rule = (Ok tt, w') /\
    w_log w' = [EvClick (TElem 10); EvInput "from";
                EvSetValue "from" "old@example.com | jane@example.com"; EvClick (TRow 1)].
Proof.
  split; [reflexivity|]. split; [reflexivity|].
  destruct (@updateExistingFilter_appends settings_host rule_row world_rule from_old eq_refl eq_refl)
    as [_ (w' & E & L)].
  exists w'. split; [exact E|]. rewrite L. vm_compute. reflexivity.
Defined.

(** C3 (counterexample): with no Update affordance rendered, the first run's
    edit is never stored, so the second run finds [old@example.com] again and
    writes the From input a second time. *)
Lemma updateExistingFilter_twice_rewrites :
  let '(r1, w1) := @updateExistingFilter settings_host rule_row "jane@example.com" world_rule_bare in
  let '(r2, w2) := @updateExistingFilter settings_host rule_row "jane@example.com" w1 in
  r1 = Ok tt /\ r2 = Ok tt /\
  w_log w2 = [EvInput "from"; EvSetValue "from" "old@example.com | jane@example.com";
              EvClick (TRow 1);
              EvInput "from"; EvSetValue "from" "old@example.com | jane@example.com";
              EvClick (TRow 1)] /\
  d_saved_from (w_dom w2) = "old@example.com"%string.
Proof. vm_compute. repeat split. Qed.

(** C3 (amended): on the settings page ([settings_host]: opening a rule
    loads its stored From criterion, Update stores the From input), with the
    From input and an Update affordance rendered and element ids distinct,
    two successive runs both succeed, the stored From criterion changes at
    most once (in the first run, and only when the sender is not already in
    it), and the second run writes nothing, dispatches no input event, and
    clicks only the rule row and the Cancel affordance if one is rendered. *)
Theorem updateExistingFilter_twice (r : row) (s : string) (w : world) (i : input) (u : elem)
  (Hfrom : findInputByLabel "From" (w_dom w) = Some i)
  (Hnd : NoDup (map el_id (d_elems (w_dom w))))
  (Hupd : find_text "Update filter" (buttons_or_spans (w_dom w)) = Some u) :
  exists w1 w2,
    @updateExistingFilter settings_host r s w = (Ok tt, w1) /\
    @updateExistingFilter settings_host r s w1 = (Ok tt, w2) /\
    d_saved_from (w_dom w1) =
      (if includes (d_saved_from (w_dom w)) s then d_saved_from (w_dom w)
       else append (d_saved_from (w_dom w)) (append sep s)) /\
    d_saved_from (w_dom w2) = d_saved_from (w_dom w1) /\
    w_log w2 = match find_text "Cancel" (buttons_or_spans (w_dom w)) with
               | Some c => [EvClick (TElem (el_id c))] | None => [] end
               ++ EvClick (TRow (row_id r)) :: w_log w1.
Proof.
  destruct (includes (d_saved_from (w_dom w)) s) eqn:Hs.
  - destruct (run_present w i s r Hfrom Hs) as (w1 & E1 & S1 & El1 & (i1 & F1) & _).
    rewrite <- S1 in Hs.
    destruct (run_present w1 i1 s r F1 Hs) as (w2 & E2 & S2 & _ & _ & L2).
    exists w1, w2. rewrite (buttons_or_spans_elems _ _ El1) in L2. auto.
  - destruct (run_absent w i s r u Hfrom Hnd Hupd Hs) as (w1 & E1 & S1 & El1 & (i1 & F1) & _).
    assert (Hs1 : includes (d_saved_from (w_dom w1)) s = true)
      by (rewrite S1; apply includes_appended).
    destruct (run_present w1 i1 s r F1 Hs1) as (w2 & E2 & S2 & _ & _ & L2).
    exists w1, w2. rewrite (buttons_or_spans_elems _ _ El1) in L2. auto.
Qed.

Lemma updateExistingFilter_twice_witness :
  exists w1 w2,
    @updateExistingFilter settings_host rule_row "jane@example.com" world_rule = (Ok tt, w1) /\
    @updateExistingFilter settings_host rule_row "jane@example.com" w1 = (Ok tt, w2) /\
    d_saved_from (w_dom w1) = "old@example.com | jane@example.com"%string /\
    d_saved_from (w_dom w2) = d_saved_from (w_dom w1) /\
    w_log w2 = [EvClick (TElem 11); EvClick (TRow 1)] ++ w_log w1.
Proof.
  destruct (updateExistingFilter_twice rule_row "jane@example.com" world_rule
              {| in_id := "from"; in_value := ""; in_checked := false |} btn_update
              eq_refl
              ltac:(repeat constructor; cbv; intuition discriminate)
              eq_refl)
    as (w1 & w2 & E1 & E2 & S1 & S2 & L2).
  exists w1, w2. repeat split; assumption.
Defined.


Lemma findFilterByMetadata_spec_witness :
  findFilterByMetadata "[auto-label]" "Work"
    [{| row_id := 2; row_text := "From: news@shop.example Label: Work" |}; rule_row]
  = Some rule_row.
Proof.
  apply (proj1 (proj2 (findFilterByMetadata_spec "[auto-label]" "Work"
           [{| row_id := 2; row_text := "From: news@shop.example Label: Work" |}; rule_row]))
           [{| row_id := 2; row_text := "From: news@shop.example Label: Work" |}] rule_row []);
    [reflexivity|reflexivity|].
  intros r' [Hr|Hr]; simpl in Hr; [destruct Hr as [<-|[]]; reflexivity|contradiction].
Defined.

(** ** Further properties *)

(** [validateEmail] accepts exactly the strings matched by its pattern
    [/^[^\s@]+@[^\s@]+\.[^\s@]+$/]. *)
Theorem validateEmail_regex (email : string) :
  validateEmail email = true <-> email_regex_match (list_ascii_of_string email).
Proof.
  unfold validateEmail. generalize (list_ascii_of_string email) as s. intros s. split.
  - unfold validate_chars. destruct (split_at_sign s) as [[l b]|] eqn:Es; [|discriminate].
    apply split_at_sign_sound in Es. subst s.
    destruct l as [|l0 l']; [discriminate|]. simpl andb.
    intros E. apply andb_prop in E. destruct E as [Hl Hb].
    unfold domain_ok in Hb. apply andb_prop in Hb. destruct Hb as [Hb Hd].
    destruct b as [|x b']; [discriminate|].
    apply existsb_exists in Hd. destruct Hd as (c & Hc & Ec).
    unfold eqa in Ec. apply Ascii.eqb_eq in Ec. subst c.
    apply in_split in Hc. destruct Hc as (p & q & Hpq).
    assert (Hne : b' <> []) by (intros ->; simpl in Hpq; destruct p; discriminate).
    pose proof (app_removelast_last x Hne) as Hb'.
    remember (last b' x) as z eqn:Hz. clear Hz.
    rewrite Hpq in Hb'. rewrite <- app_assoc in Hb'. simpl in Hb'.
    exists (l0 :: l'), (x :: p), (q ++ [z]).
    rewrite Hb'. rewrite Hb' in Hb.
    change (forallb ns (x :: p ++ c_dot :: q ++ [z])) with
      (forallb ns ((x :: p) ++ c_dot :: q ++ [z])) in Hb.
    rewrite forallb_app in Hb. apply andb_prop in Hb. destruct Hb as [Hb1 Hb2].
    simpl in Hb2.
    repeat split; try assumption; try discriminate.
    intros Hq. apply app_eq_nil in Hq. destruct Hq as [_ Hq]. discriminate.
  - intros (l & d1 & d2 & -> & Hl & Hd1 & Hd2 & Fl & Fd1 & Fd2).
    unfold validate_chars. rewrite split_at_sign_app.
    2:{ apply (forallb_impl ns); [|exact Fl]. intros c Hc. now rewrite (ns_not_at c Hc). }
    destruct l as [|l0 l']; [contradiction|]. rewrite Fl. simpl andb.
    unfold domain_ok. rewrite forallb_app, Fd1. simpl. rewrite Fd2.
    destruct d1 as [|x d1']; [contradiction|]. simpl.
    replace (d1' ++ c_dot :: d2) with ((d1' ++ [c_dot]) ++ d2) by (rewrite <- app_assoc; reflexivity).
    rewrite removelast_app by exact Hd2. rewrite existsb_app, existsb_app. simpl.
    rewrite orb_true_r. reflexivity.
Qed.

Lemma take_while_prefix p l : exists q, l = take_while p l ++ q.
Proof. exists (drop_while p l). symmetry. apply take_drop_while. Qed.

Lemma triml_infix s : infix (triml s) s.
Proof.
  unfold triml.
  assert (Hd : forall t, exists p, t = p ++ drop_spaces t).
  { induction t as [|c t IH]; simpl; [exists []; reflexivity|].
    destruct (is_space c); [destruct IH as [p Hp]; exists (c :: p); simpl; congruence|].
    exists []; reflexivity. }
  destruct (Hd s) as [p1 E1]. destruct (Hd (rev (drop_spaces s))) as [p2 E2].
  exists p1, (rev p2). rewrite E1 at 1. f_equal.
  transitivity (rev (rev (drop_spaces s))); [symmetry; apply rev_involutive|].
  rewrite E2 at 1. rewrite rev_app_distr. reflexivity.
Qed.

Lemma bare_match_at_infix s m : bare_match_at s = Some m -> exists q, s = m ++ q.
Proof.
  unfold bare_match_at.
  destruct (take_while is_wdd s) as [|x xs] eqn:Et; [discriminate|].
  destruct (drop_while is_wdd s) as [|a r2] eqn:Edw; [discriminate|].
  destruct (eqa a c_at) eqn:Ea; [|discriminate].
  destruct (dot_split [] (take_while is_wdd r2)) as [[p t]|] eqn:Ed; [|discriminate].
  intros E; inversion E; subst m. clear E.
  unfold eqa in Ea. apply Ascii.eqb_eq in Ea. subst a.
  assert (Hs : s = (x :: xs) ++ c_at :: r2) by (rewrite <- Et, <- Edw; symmetry; apply take_drop_while).
  assert (Hds : forall pre l p t, dot_split pre l = Some (p, t) -> pre ++ l = p ++ c_dot :: t).
  { intros pre0 l0. revert pre0. induction l0 as [|c rest IH]; intros pre0 p0 t0; simpl; [discriminate|].
    destruct rest as [|d r]; [discriminate|].
    destruct (dot_split (pre0 ++ [c]) (d :: r)) as [[p' t']|] eqn:Er.
    - intros E'; inversion E'; subst. rewrite <- (IH _ _ _ Er), <- app_assoc. reflexivity.
    - destruct (eqa c c_dot && is_word d && negb (forallb (fun _ => false) pre0)) eqn:Ec;
        [|discriminate].
      intros E'; inversion E'; subst. apply andb_prop in Ec. destruct Ec as [Ec _].
      apply andb_prop in Ec. destruct Ec as [Ec _]. unfold eqa in Ec. apply Ascii.eqb_eq in Ec.
      subst c. reflexivity. }
  apply Hds in Ed. simpl in Ed.
  destruct (take_while_prefix is_wdd r2) as [q1 Hq1].
  destruct (take_while_prefix is_word t) as [q2 Hq2].
  exists (q2 ++ q1). rewrite Hs, Hq1, Ed. rewrite Hq2 at 1.
  rewrite <- !app_assoc. simpl. rewrite <- !app_assoc. simpl. rewrite <- !app_assoc. reflexivity.
Qed.

Lemma bare_match_infix s m : bare_match s = Some m -> infix m s.
Proof.
  induction s as [|c s IH]; intros E.
  - discriminate E.
  - simpl in E. destruct (bare_match_at (c :: s)) eqn:E0.
    + inversion E; subst. destruct (bare_match_at_infix _ _ E0) as [q Hq]. exists [], q. exact Hq.
    + destruct (IH E) as (p & q & Hpq). exists (c :: p), q. rewrite Hpq. reflexivity.
Qed.

Lemma angle_match_infix s b : angle_match s = Some b -> infix b s.
Proof.
  intros E. destruct (angle_match_sound s b E) as (pre & post & -> & _ & _).
  exists (pre ++ [c_lt]), (c_gt :: post). rewrite <- app_assoc. reflexivity.
Qed.

(** Whatever branch it takes, [extractEmailAddress] returns a contiguous
    piece of its argument. *)
Theorem extractEmailAddress_infix (emailString : string) :
  exists p q, list_ascii_of_string emailString =
              p ++ list_ascii_of_string (extractEmailAddress emailString) ++ q.
Proof.
  unfold extractEmailAddress. rewrite list_ascii_of_string_of_list_ascii.
  unfold extract_chars. generalize (list_ascii_of_string emailString) as s. intros s.
  destruct (angle_match s) as [b|] eqn:Ea; [exact (angle_match_infix _ _ Ea)|].
  destruct (bare_match s) as [m|] eqn:Eb; [exact (bare_match_infix _ _ Eb)|].
  apply triml_infix.
Qed.

(** An input returned by [findInputByLabel] is an input of the page whose
    non-empty id is the [for] of a label of the page, and that label's
    trimmed text equals the searched text or its lower-cased text contains
    it. *)
Theorem findInputByLabel_sound (labelText : string) (d : dom) (i : input) :
  findInputByLabel labelText d = Some i ->
  exists l, In l (d_labels d) /\ lb_for l = Some (in_id i) /\ in_id i <> EmptyString /\
    In i (d_inputs d) /\
    (trim (lb_text l) = labelText \/
     includes (to_lower (lb_text l)) (to_lower labelText) = true).
Proof.
  unfold findInputByLabel.
  assert (Hl : forall l, match find_label_exact labelText (d_labels d) with
                         | Some l => Some l | None => find_label_ci labelText (d_labels d) end = Some l ->
                 In l (d_labels d) /\
                 (trim (lb_text l) = labelText \/
                  includes (to_lower (lb_text l)) (to_lower labelText) = true)).
  { intros l. unfold find_label_exact, find_label_ci.
    destruct (find _ (d_labels d)) as [l0|] eqn:E1.
    - intros E; inversion E; subst l0. apply find_some in E1. destruct E1 as [Hin He].
      apply String.eqb_eq in He. auto.
    - intros E. apply find_some in E. destruct E as [Hin He]. auto. }
  destruct (match find_label_exact labelText (d_labels d) with
            | Some l => Some l | None => find_label_ci labelText (d_labels d) end) as [l|];
    [|discriminate].
  destruct (Hl l eq_refl) as [Hin Hm].
  destruct (lb_for l) as [x|] eqn:Ef; [|discriminate].
  destruct (truthy x) eqn:Ht; [|discriminate].
  unfold getElementById. intros E. apply find_some in E. destruct E as [Hi Hx].
  apply String.eqb_eq in Hx. subst x.
  exists l. repeat split; auto.
  intros He. rewrite He in Ht. discriminate.
Qed.

(** When a label's trimmed text equals the searched text and no earlier
    label's does, [findInputByLabel] follows that label's [for], even if an
    earlier label matches case-insensitively. *)
Theorem findInputByLabel_exact_first (labelText : string) (d : dom) l1 l l2 :
  d_labels d = l1 ++ l :: l2 ->
  trim (lb_text l) = labelText ->
  (forall l', In l' l1 -> trim (lb_text l') <> labelText) ->
  findInputByLabel labelText d =
    match lb_for l with
    | Some id => if truthy id then getElementById id d else None
    | None => None
    end.
Proof.
  intros Hd Hl Hl1. unfold findInputByLabel, find_label_exact. rewrite Hd.
  rewrite (find_first_app (fun l => String.eqb (trim (lb_text l)) labelText) l1 l l2).
  - reflexivity.
  - apply String.eqb_eq. exact Hl.
  - intros y Hy. apply String.eqb_neq. apply Hl1. exact Hy.
Qed.

Lemma nav_loop_bounds {H : Host} (n : nat) (k : Z) (w : world) :
  (1 <= k)%Z -> (Z.of_nat n + k = 50)%Z ->
  exists w', nav_loop n k w = (Ok tt, w') /\ w_log w' = w_log w /\
    (200 <= w_now w' - w_now w <= 10000 - 200 * (k - 1))%Z.
Proof.
  revert k w. induction n as [|n IH]; intros k w Hk Hn.
  - cbn [nav_loop]. unfold bind, sleep, ret. eexists; split; [reflexivity|].
    cbn [w_now w_log]. simpl Z.of_nat in Hn. split; [reflexivity|]. lia.
  - rewrite Nat2Z.inj_succ in Hn.
    cbn [nav_loop]. unfold bind at 1, sleep. cbn beta iota.
    unfold bind at 1, get_dom. cbn [w_dom].
    destruct (d_settings (host_advance 200 (w_dom w))).
    + eexists; split; [reflexivity|]. cbn [w_now w_log]. split; [reflexivity|]. lia.
    + destruct (IH (k + 1)%Z {| w_dom := host_advance 200 (w_dom w); w_now := (w_now w + 200)%Z;
                                w_log := w_log w |}) as (w' & E & El & En); try lia.
      exists w'. split; [exact E|]. cbn [w_now w_log] in El, En. split; [exact El|]. lia.
Qed.

(** [navigateToFiltersSettings] never fails: it logs one navigation to
    [#settings/filters] and waits between 200 ms and 10 s. *)
Theorem navigateToFiltersSettings_bounded {H : Host} (w : world) :
  exists w', navigateToFiltersSettings w = (Ok tt, w') /\
    w_log w' = EvNavigate "settings/filters" :: w_log w /\
    (200 <= w_now w' - w_now w <= 10000)%Z.
Proof.
  unfold navigateToFiltersSettings. unfold bind at 1.
  unfold set_hash, bind, emit, modify_dom. cbn beta iota.
  destruct (nav_loop_bounds 49 1 {| w_dom := with_frag (w_dom w) (frag_of_hash "settings/filters");
                                    w_now := w_now w; w_log := EvNavigate "settings/filters" :: w_log w |})
    as (w' & E & El & En); try (simpl; lia).
  exists w'. split; [exact E|]. cbn [w_now w_log] in El, En. split; [exact El|]. lia.
Qed.

Lemma wfl_loop_bounds {H : Host} (n : nat) (t s j : Z) (w : world) :
  w_now w = (s + 100 * j)%Z -> (0 <= j)%Z -> (100 * j <= t)%Z ->
  (t < 100 * (j + 1 + Z.of_nat n))%Z ->
  exists r w', wfl_loop n t s w = (r, w') /\ w_log w' = w_log w /\
    (s + 100 * (j + 1) <= w_now w' <= s + t + 100)%Z /\
    ((r = Ok tt /\ d_labels (w_dom w') <> []) \/
     (r = Err "Timeout waiting for form labels" /\ d_labels (w_dom w') = [] /\
      (w_now w' - s > t)%Z)).
Proof.
  revert j w. induction n as [|n IH]; intros j w Hn Hj Hjt Ht;
    rewrite ?Nat2Z.inj_succ in Ht; simpl Z.of_nat in Ht;
    cbn [wfl_loop]; unfold bind, sleep, get_dom, get_now;
    cbn - [Z.gtb Z.add Z.mul Z.sub Z.div];
    (destruct (d_labels (host_advance 100 (w_dom w))) as [|l0 ls] eqn:El;
     [|exists (Ok tt); eexists; split; [reflexivity|]; cbn [w_now w_log w_dom];
       split; [reflexivity|]; split; [lia|left; split; [reflexivity|]; rewrite El; discriminate]]);
    cbn - [Z.gtb Z.add Z.mul Z.sub Z.div].
  - assert (E : (w_now w + 100 - s >? t)%Z = true) by (apply Z.gtb_lt; lia).
    rewrite E. do 2 eexists; split; [reflexivity|]. cbn [w_now w_log w_dom].
    split; [reflexivity|]. split; [lia|right; split; [reflexivity|]; split; [exact El|lia]].
  - destruct (w_now w + 100 - s >? t)%Z eqn:E.
    + apply Z.gtb_lt in E. do 2 eexists; split; [reflexivity|]. cbn [w_now w_log w_dom].
      split; [reflexivity|]. split; [lia|right; split; [reflexivity|]; split; [exact El|lia]].
    + rewrite Z.gtb_ltb, Z.ltb_ge in E.
      destruct (IH (j + 1)%Z {| w_dom := host_advance 100 (w_dom w); w_now := (w_now w + 100)%Z;
                                 w_log := w_log w |}) as (r & w' & E' & Hl & Hb & Hr);
        cbn [w_now]; try lia.
      exists r, w'. split; [exact E'|]. split; [exact Hl|]. split; [lia|exact Hr].
Qed.

(** For a non-negative timeout, [waitForLabels] logs nothing and waits at
    least 100 ms and at most [timeout + 100] ms; it succeeds exactly with
    labels on the page, and otherwise rejects with its timeout message once
    more than [timeout] ms have passed. *)
Theorem waitForLabels_bounded {H : Host} (timeout : Z) (w : world) :
  (0 <= timeout)%Z ->
  exists r w', waitForLabels timeout w = (r, w') /\ w_log w' = w_log w /\
    (100 <= w_now w' - w_now w <= timeout + 100)%Z /\
    ((r = Ok tt /\ d_labels (w_dom w') <> []) \/
     (r = Err "Timeout waiting for form labels" /\ d_labels (w_dom w') = [] /\
      (w_now w' - w_now w > timeout)%Z)).
Proof.
  intros Ht.
  assert (Hq : (0 <= timeout / 100)%Z) by (apply Z.div_pos; lia).
  assert (Hm := Z.mod_pos_bound timeout 100 ltac:(lia)).
  assert (Hdm := Z.div_mod timeout 100 ltac:(lia)).
  unfold waitForLabels. unfold bind at 1, get_now. cbn beta iota.
  destruct (wfl_loop_bounds (Z.to_nat (timeout / 100) + 1) timeout (w_now w) 0 w)
    as (r & w' & E & Hl & Hb & Hr); try lia.
  exists r, w'. split; [exact E|]. split; [exact Hl|]. split; [lia|exact Hr].
Qed.

Lemma waitForLabels_bounded_witness :
  (0 <= 5000)%Z /\
  exists r w', @waitForLabels static_host 5000 world_blank = (r, w') /\ w_log w' = w_log world_blank /\
    (100 <= w_now w' - w_now world_blank <= 5000 + 100)%Z.
Proof.
  split; [lia|].
  destruct (@waitForLabels_bounded static_host 5000 world_blank ltac:(lia))
    as (r & w' & E & Hl & Hb & _).
  exists r, w'. auto.
Defined.

Section Frames.
Context {H : Host}.
Variable P : string -> Prop.
Variable L : list string.

Lemma wo_nolog {A} (m : M A) : (forall w, w_log (snd (m w)) = w_log w) -> writes_only P m.
Proof. intros E w. exists []. split; [apply E|]. intros ? ? []. Qed.

Lemma fo_ok {A} (m : M A) : (forall w, exists a, fst (m w) = Ok a) -> fails_only L m.
Proof. intros E w. destruct (E w) as [a ->]. exact I. Qed.

Lemma wo_ret {A} (a : A) : writes_only P (ret a).
Proof. apply wo_nolog. reflexivity. Qed.
Lemma fo_ret {A} (a : A) : fails_only L (ret a).
Proof. apply fo_ok. intros w. exists a. reflexivity. Qed.
Lemma wo_throw {A} msg : writes_only P (@throw A msg).
Proof. apply wo_nolog. reflexivity. Qed.
Lemma fo_throw {A} msg : In msg L -> fails_only L (@throw A msg).
Proof. intros Hm w. exact Hm. Qed.
Lemma wo_get_dom : writes_only P get_dom.
Proof. apply wo_nolog. reflexivity. Qed.
Lemma fo_get_dom : fails_only L get_dom.
Proof. apply fo_ok. intros w. eexists. reflexivity. Qed.
Lemma wo_get_now : writes_only P get_now.
Proof. apply wo_nolog. reflexivity. Qed.
Lemma fo_get_now : fails_only L get_now.
Proof. apply fo_ok. intros w. eexists. reflexivity. Qed.
Lemma wo_get_hash : writes_only P get_hash.
Proof. apply wo_nolog. reflexivity. Qed.
Lemma fo_get_hash : fails_only L get_hash.
Proof. apply fo_ok. intros w. eexists. reflexivity. Qed.
Lemma wo_modify f : writes_only P (modify_dom f).
Proof. apply wo_nolog. reflexivity. Qed.
Lemma fo_modify f : fails_only L (modify_dom f).
Proof. apply fo_ok. intros w. eexists. reflexivity. Qed.
Lemma wo_sleep ms : writes_only P (sleep ms).
Proof. apply wo_nolog. reflexivity. Qed.
Lemma fo_sleep ms : fails_only L (sleep ms).
Proof. apply fo_ok. intros w. eexists. reflexivity. Qed.
Lemma fo_emit e : fails_only L (emit e).
Proof. apply fo_ok. intros w. eexists. reflexivity. Qed.

Lemma wo_emit e : (forall id v, e = EvSetValue id v -> P v) -> writes_only P (emit e).
Proof.
  intros He w. exists [e]. split; [reflexivity|].
  intros id v [Hv|[]]. exact (He id v Hv).
Qed.

Lemma wo_bind {A B} (m : M A) (k : A -> M B) :
  writes_only P m -> (forall a, writes_only P (k a)) -> writes_only P (bind m k).
Proof.
  intros Hm Hk w. unfold bind. destruct (Hm w) as (l1 & E1 & P1).
  destruct (m w) as [[a|e] w1]; simpl in *.
  - destruct (Hk a w1) as (l2 & E2 & P2). exists (l2 ++ l1). split.
    + rewrite E2, E1, app_assoc. reflexivity.
    + intros id v Hin. apply in_app_or in Hin. destruct Hin; eauto.
  - exists l1. auto.
Qed.

Lemma fo_bind {A B} (m : M A) (k : A -> M B) :
  fails_only L m -> (forall a, fails_only L (k a)) -> fails_only L (bind m k).
Proof.
  intros Hm Hk w. unfold bind. specialize (Hm w).
  destruct (m w) as [[a|e] w1]; simpl in *; [apply Hk|exact Hm].
Qed.

Lemma wo_catch {A} (m : M A) (h : string -> M A) :
  writes_only P m -> (forall e, writes_only P (h e)) -> writes_only P (catch m h).
Proof.
  intros Hm Hh w. unfold catch. destruct (Hm w) as (l1 & E1 & P1).
  destruct (m w) as [[a|e] w1]; simpl in *.
  - exists l1. auto.
  - destruct (Hh e w1) as (l2 & E2 & P2). exists (l2 ++ l1). split.
    + rewrite E2, E1, app_assoc. reflexivity.
    + intros id v Hin. apply in_app_or in Hin. destruct Hin; eauto.
Qed.

Lemma wo_mono {A} (Q : string -> Prop) (m : M A) :
  (forall v, P v -> Q v) -> writes_only P m -> writes_only Q m.
Proof.
  intros HPQ Hm w. destruct (Hm w) as (l & E & Hl). exists l. split; [exact E|].
  intros id v Hin. apply HPQ. eapply Hl. exact Hin.
Qed.

End Frames.

Lemma fo_mono {A} (L L' : list string) (m : M A) :
  incl L L' -> fails_only L m -> fails_only L' m.
Proof. intros HL Hm w. specialize (Hm w). destruct (fst (m w)); auto. Qed.

Create HintDb framedb.
#[local] Hint Resolve wo_ret fo_ret wo_throw wo_get_dom fo_get_dom wo_get_now fo_get_now
  wo_get_hash fo_get_hash wo_modify fo_modify wo_sleep fo_sleep fo_emit : framedb.

Ltac frame_solve :=
  repeat match goal with
         | |- writes_only _ (bind _ _) => apply wo_bind; [|intro]
         | |- fails_only _ (bind _ _) => apply fo_bind; [|intro]
         | |- writes_only _ (catch _ _) => apply wo_catch; [|intro]
         | |- writes_only _ (emit _) => apply wo_emit; intros ? ? ?; discriminate
         | |- writes_only _ (match ?x with _ => _ end) => destruct x eqn:?
         | |- fails_only _ (match ?x with _ => _ end) => destruct x eqn:?
         | |- writes_only _ (if ?x then _ else _) => destruct x eqn:?
         | |- fails_only _ (if ?x then _ else _) => destruct x eqn:?
         | |- fails_only _ (throw _) => apply fo_throw; simpl; tauto
         | _ => solve [eauto with framedb]
         end.

Section Workflow_frames.
Context {H : Host}.
Variable METADATA_PREFIX : string.

Lemma wo_click P t : writes_only P (click t).
Proof. unfold click. frame_solve. Qed.
Lemma fo_click L t : fails_only L (click t).
Proof. unfold click. frame_solve. Qed.
Lemma wo_set_hash P h : writes_only P (set_hash h).
Proof. unfold set_hash. frame_solve. Qed.
Lemma fo_set_hash L h : fails_only L (set_hash h).
Proof. unfold set_hash. frame_solve. Qed.
Lemma wo_set_value (P : string -> Prop) id v : P v -> writes_only P (set_value id v).
Proof.
  intros Hv. unfold set_value. apply wo_bind; [|intros; apply wo_modify].
  apply wo_emit. intros ? ? E. inversion E; subst. exact Hv.
Qed.
Lemma fo_set_value L id v : fails_only L (set_value id v).
Proof. unfold set_value. frame_solve. Qed.
Lemma wo_dispatch P id : writes_only P (dispatch_input id).
Proof. unfold dispatch_input. frame_solve. Qed.
Lemma fo_dispatch L id : fails_only L (dispatch_input id).
Proof. unfold dispatch_input. frame_solve. Qed.
Lemma wo_alert P a : writes_only P (alert a).
Proof. unfold alert. frame_solve. Qed.
Lemma fo_alert L a : fails_only L (alert a).
Proof. unfold alert. frame_solve. Qed.

#[local] Hint Resolve wo_click fo_click wo_set_hash fo_set_hash fo_set_value
  wo_dispatch fo_dispatch wo_alert fo_alert : framedb.

Lemma wo_wfl_loop P n t s : writes_only P (wfl_loop n t s).
Proof. induction n; simpl; frame_solve. Qed.
Lemma fo_wfl_loop L n t s :
  In "Timeout waiting for form labels"%string L -> fails_only L (wfl_loop n t s).
Proof. intros HL. induction n; simpl; frame_solve. Qed.
Lemma wo_nav_loop P n k : writes_only P (nav_loop n k).
Proof. revert k. induction n; intros k; simpl; frame_solve. Qed.
Lemma fo_nav_loop L n k : fails_only L (nav_loop n k).
Proof. revert k. induction n; intros k; simpl; frame_solve. Qed.

#[local] Hint Resolve wo_wfl_loop fo_wfl_loop wo_nav_loop fo_nav_loop : framedb.

Lemma createOrUpdateFilter_errors (senderEmail labelName : string) :
  fails_only workflow_errors (createOrUpdateFilter METADATA_PREFIX senderEmail labelName).
Proof.
  unfold createOrUpdateFilter, navigateToFiltersSettings, findFilterByMetadataM,
    updateExistingFilter, createNewFilter, waitForLabels.
  frame_solve.
  apply fo_wfl_loop. simpl. tauto.
Qed.

Lemma createOrUpdateFilter_writes (senderEmail labelName : string) :
  writes_only (workflow_value METADATA_PREFIX senderEmail labelName)
    (createOrUpdateFilter METADATA_PREFIX senderEmail labelName).
Proof.
  unfold createOrUpdateFilter, navigateToFiltersSettings, findFilterByMetadataM,
    updateExistingFilter, createNewFilter, waitForLabels.
  frame_solve.
  all: apply wo_set_value; unfold workflow_value; eauto.
Qed.
End Workflow_frames.

(** [handleAutoLabelClick] never rejects: every error of the workflow is
    caught and reported. *)
Theorem handleAutoLabelClick_never_rejects {H : Host} (METADATA_PREFIX : string)
    (rightClickedElement : option (list node)) (answer : option string) (w : world) :
  fst (handleAutoLabelClick METADATA_PREFIX rightClickedElement answer w) = Ok tt.
Proof.
  unfold handleAutoLabelClick.
  destruct rightClickedElement as [chain|]; [|reflexivity].
  destruct (extractSenderFromElement chain) as [s|]; [|reflexivity].
  unfold bind at 1, emit. cbn beta iota.
  destruct answer as [l|]; [|reflexivity].
  destruct (negb (truthy l) || String.eqb (trim l) EmptyString); [reflexivity|].
  unfold catch.
  destruct ((createOrUpdateFilter METADATA_PREFIX s (trim l) ;;; alert (ASuccess s l))
              {| w_dom := w_dom w; w_now := w_now w; w_log := EvPrompt s :: w_log w |})
    as [[[]|e] w1]; reflexivity.
Qed.

Lemma trim_empty : trim EmptyString = EmptyString.
Proof. reflexivity. Qed.

(** With a sender found and a non-blank answer, [handleAutoLabelClick] runs
    [createOrUpdateFilter] on the trimmed label after logging the prompt,
    then alerts success or the failure message, which is one of
    [workflow_errors]. *)
Theorem handleAutoLabelClick_reports {H : Host} (METADATA_PREFIX : string)
    (chain : list node) (senderEmail labelName : string) (w : world) :
  extractSenderFromElement chain = Some senderEmail ->
  trim labelName <> EmptyString ->
  exists r w2 w1,
    createOrUpdateFilter METADATA_PREFIX senderEmail (trim labelName)
      {| w_dom := w_dom w; w_now := w_now w; w_log := EvPrompt senderEmail :: w_log w |}
      = (r, w2) /\
    handleAutoLabelClick METADATA_PREFIX (Some chain) (Some labelName) w = (Ok tt, w1) /\
    w_dom w1 = w_dom w2 /\ w_now w1 = w_now w2 /\
    w_log w1 = EvAlert (match r with
                        | Ok _ => ASuccess senderEmail labelName
                        | Err m => AFailure m
                        end) :: w_log w2 /\
    match r with Ok _ => True | Err m => In m workflow_errors end.
Proof.
  intros Hs Hl. unfold handleAutoLabelClick. rewrite Hs.
  unfold bind at 1, emit. cbn beta iota.
  assert (Ht : truthy labelName = true) by (destruct labelName; [contradiction|reflexivity]).
  rewrite Ht. apply String.eqb_neq in Hl. rewrite Hl. cbn [negb orb].
  destruct (createOrUpdateFilter METADATA_PREFIX senderEmail (trim labelName)
      {| w_dom := w_dom w; w_now := w_now w; w_log := EvPrompt senderEmail :: w_log w |})
    as [r w2] eqn:E.
  exists r, w2. unfold catch, bind. rewrite E.
  pose proof (createOrUpdateFilter_errors METADATA_PREFIX senderEmail (trim labelName)
    {| w_dom := w_dom w; w_now := w_now w; w_log := EvPrompt senderEmail :: w_log w |}) as Herr.
  rewrite E in Herr. simpl in Herr.
  destruct r as [[]|m]; (eexists; repeat split; exact Herr).
Qed.

(** [updateExistingFilter] fails only when the opened rule has no From
    input; missing Update or Cancel buttons do not make it fail. *)
Theorem updateExistingFilter_result {H : Host} (filterElement : row) (newSenderEmail : string)
    (w : world) :
  fst (updateExistingFilter filterElement newSenderEmail w) =
  match findInputByLabel "From"
          (host_advance 1000 (host_click (TRow (row_id filterElement)) (w_dom w))) with
  | None => Err "Could not find From input field"
  | Some _ => Ok tt
  end.
Proof.
  unfold updateExistingFilter, bind, click, emit, modify_dom, sleep, get_dom. cbn.
  destruct (findInputByLabel "From" _) as [i|]; [|reflexivity].
  destruct (includes _ _).
  - destruct (find_text "Cancel" _); reflexivity.
  - destruct (find_text "Update filter" _); reflexivity.
Qed.

(** [createOrUpdateFilter] only ever rejects with one of the messages of
    [workflow_errors]. *)
Theorem createOrUpdateFilter_fails_only {H : Host} (METADATA_PREFIX senderEmail labelName : string)
    (w : world) :
  match fst (createOrUpdateFilter METADATA_PREFIX senderEmail labelName w) with
  | Ok _ => True
  | Err m => In m workflow_errors
  end.
Proof. apply createOrUpdateFilter_errors. Qed.

(** The only values [handleAutoLabelClick] writes into inputs are the
    sender, the metadata marker of the trimmed answer, or an old From
    criterion extended by [" | " + sender]; nothing is written without a
    sender and an answer. *)
Theorem handleAutoLabelClick_writes {H : Host} (METADATA_PREFIX : string)
    (rightClickedElement : option (list node)) (answer : option string) :
  writes_only
    (fun v => exists chain s l, rightClickedElement = Some chain /\
       extractSenderFromElement chain = Some s /\ answer = Some l /\
       workflow_value METADATA_PREFIX s (trim l) v)
    (handleAutoLabelClick METADATA_PREFIX rightClickedElement answer).
Proof.
  unfold handleAutoLabelClick.
  destruct rightClickedElement as [chain|] eqn:Ec; [|apply wo_ret].
  destruct (extractSenderFromElement chain) as [s|] eqn:Es; [|apply wo_alert].
  apply wo_bind; [apply wo_emit; intros ? ? ?; discriminate|intros _].
  destruct answer as [l|] eqn:Ea; [|apply wo_ret].
  destruct (negb (truthy l) || String.eqb (trim l) EmptyString); [apply wo_ret|].
  apply wo_catch; [|intros; apply wo_alert].
  apply wo_bind; [|intros; apply wo_alert].
  eapply wo_mono; [|apply createOrUpdateFilter_writes].
  intros v Hv. exists chain, s, l. auto.
Qed.

Lemma has_item_after_inject menu : has_auto_label_item (injectContextMenuItem menu) = true.
Proof.
  unfold injectContextMenuItem. destruct (has_auto_label_item menu) eqn:E; [exact E|].
  destruct menu as [b r t cs]. reflexivity.
Qed.

Lemma injectContextMenuItem_idem menu :
  injectContextMenuItem (injectContextMenuItem menu) = injectContextMenuItem menu.
Proof. unfold injectContextMenuItem at 1. rewrite has_item_after_inject. reflexivity. Qed.

(** Injecting the menu item is idempotent; a menu that already has the item
    is left alone, and otherwise the item and then the separator are put
    before the existing children. *)
Theorem injectContextMenuItem_spec (menu : mnode) :
  injectContextMenuItem (injectContextMenuItem menu) = injectContextMenuItem menu /\
  (has_auto_label_item menu = true -> injectContextMenuItem menu = menu) /\
  (has_auto_label_item menu = false ->
   m_children (injectContextMenuItem menu) = menuItem :: separator :: m_children menu).
Proof.
  split; [|split].
  - apply injectContextMenuItem_idem.
  - intros E. unfold injectContextMenuItem. rewrite E. reflexivity.
  - intros E. unfold injectContextMenuItem. rewrite E. destruct menu as [b r t cs].
    reflexivity.
Qed.

(** However often the menu listener fires, the menu ends with the item
    injected once if it was visible at least once, and unchanged otherwise. *)
Theorem menu_listener_repeated (menu : mnode) (visibilities : list bool) :
  fold_left (fun m v => menu_listener v m) visibilities menu =
  if existsb (fun v => v) visibilities then injectContextMenuItem menu else menu.
Proof.
  revert menu. induction visibilities as [|v vs IH]; intros menu; simpl; [reflexivity|].
  destruct v; simpl.
  - rewrite IH. destruct (existsb (fun v => v) vs); [|reflexivity].
    apply injectContextMenuItem_idem.
  - apply IH.
Qed.

Lemma dispatch_no_once (e : ievent) :
  dispatch false e onInteraction = (onInteraction, if activates e then handled else quiet).
Proof.
  destruct e as [|k]; [reflexivity|]. unfold dispatch, proxListener, activates. simpl.
  match goal with |- context [negb ?b] => destruct b end; reflexivity.
Qed.

(** Without [once], every click and every keydown of Enter, Space (as
    [" "], ["Space"] or ["Spacebar"]) is handled: default prevented,
    propagation stopped, listener called; other keys are ignored. *)
Theorem onInteraction_events (evs : list ievent) :
  run_events false onInteraction evs =
  map (fun e => if activates e then handled else quiet) evs.
Proof.
  induction evs as [|e evs IH]; [reflexivity|].
  simpl. rewrite dispatch_no_once, IH. reflexivity.
Qed.

Lemma run_events_dead (st : ilisteners) (evs : list ievent) :
  on_click st = false -> on_keydown st = false ->
  run_events true st evs = map (fun _ => quiet) evs.
Proof.
  intros Hc Hk. induction evs as [|e evs IH]; [reflexivity|].
  destruct st as [c k]; simpl in Hc, Hk; subst.
  destruct e; simpl; rewrite IH; reflexivity.
Qed.

Lemma calls_quiet {A} (l : list A) : calls (map (fun _ => quiet) l) = 0.
Proof. induction l; simpl; auto. Qed.

Lemma run_events_click_only (evs : list ievent) :
  calls (run_events true {| on_click := true; on_keydown := false |} evs) <= 1.
Proof.
  induction evs as [|e evs IH]; simpl; [unfold calls; simpl; lia|].
  destruct e as [|k]; simpl.
  - unfold calls. simpl. rewrite run_events_dead by reflexivity. fold (calls (map (fun _ => quiet) evs)).
    rewrite calls_quiet. lia.
  - exact IH.
Qed.

(** With [once], the listener is called at most once, whatever the events. *)
Theorem onInteraction_once_at_most_once (evs : list ievent) :
  calls (run_events true onInteraction evs) <= 1.
Proof.
  destruct evs as [|e evs]; [unfold calls; simpl; lia|].
  destruct e as [|k]; simpl.
  - unfold calls. simpl. rewrite run_events_dead by reflexivity. fold (calls (map (fun _ => quiet) evs)).
    rewrite calls_quiet. lia.
  - unfold dispatch, proxListener. simpl.
    destruct (negb _); simpl.
    + apply run_events_click_only.
    + unfold calls. simpl. rewrite run_events_dead by reflexivity. fold (calls (map (fun _ => quiet) evs)).
      rewrite calls_quiet. lia.
Qed.

Lemma run_events_click_only_count (evs : list ievent) :
  calls (run_events true {| on_click := true; on_keydown := false |} evs) =
  if existsb is_click evs then 1 else 0.
Proof.
  induction evs as [|e evs IH]; [reflexivity|].
  destruct e as [|k]; simpl.
  - unfold calls. simpl. rewrite run_events_dead by reflexivity. fold (calls (map (fun _ => quiet) evs)).
    rewrite calls_quiet. reflexivity.
  - exact IH.
Qed.

(** With [once], a first keydown of a non-activation key is ignored but
    uses up the keydown registration: afterwards only a click can call the
    listener. *)
Theorem onInteraction_once_ignored_key (k : string) (evs : list ievent) :
  activates (IKeydown k) = false ->
  run_events true onInteraction (IKeydown k :: evs) =
  quiet :: run_events true {| on_click := true; on_keydown := false |} evs /\
  calls (run_events true onInteraction (IKeydown k :: evs)) = if existsb is_click evs then 1 else 0.
Proof.
  intros Hk.
  assert (E : run_events true onInteraction (IKeydown k :: evs) =
              quiet :: run_events true {| on_click := true; on_keydown := false |} evs).
  { simpl in Hk. simpl. unfold dispatch, proxListener. simpl. rewrite Hk. reflexivity. }
  rewrite E. split; [reflexivity|].
  unfold calls. simpl. fold (calls (run_events true {| on_click := true; on_keydown := false |} evs)).
  apply run_events_click_only_count.
Qed.

Lemma onInteraction_once_ignored_key_witness :
  activates (IKeydown "Tab") = false /\
  run_events true onInteraction [IKeydown "Tab"; IKeydown "Enter"; IClick] =
  quiet :: run_events true {| on_click := true; on_keydown := false |} [IKeydown "Enter"; IClick] /\
  calls (run_events true onInteraction [IKeydown "Tab"; IKeydown "Enter"; IClick]) =
  if existsb is_click [IKeydown "Enter"; IClick] then 1 else 0.
Proof. split; [reflexivity|]. apply onInteraction_once_ignored_key. reflexivity. Defined.

Lemma clearNode_children (e : option string) (c : list string) (cs : list node) :
  clearNode (NElem e c cs) = clear_children cs ++ [NElem e c []].
Proof. reflexivity. Qed.

Lemma node_count_elem (e : option string) (c : list string) (cs : list node) :
  node_count (NElem e c cs) = S (count_children cs).
Proof. reflexivity. Qed.

Lemma clearNode_props (n : node) :
  length (clearNode n) = node_count n /\ forall x, In x (clearNode n) -> child_nodes x = [].
Proof.
  revert n. fix IH 1. intros [d|e c cs].
  - simpl. split; [reflexivity|]. intros x [<-|[]]. reflexivity.
  - rewrite clearNode_children, node_count_elem.
    assert (Hl : length (clear_children cs) = count_children cs /\
                 forall x, In x (clear_children cs) -> child_nodes x = []).
    { induction cs as [|a r IHr]; simpl; [split; [reflexivity|intros _ []]|].
      destruct (IH a) as [Ha1 Ha2]. destruct IHr as [Hr1 Hr2].
      rewrite length_app, Ha1, Hr1. split; [reflexivity|].
      intros x Hx. apply in_app_or in Hx. destruct Hx; auto. }
    destruct Hl as [Hl1 Hl2]. rewrite length_app, Hl1. simpl. split; [lia|].
    intros x Hx. apply in_app_or in Hx. destruct Hx as [Hx|[<-|[]]]; auto.
Qed.

(** [clearInner] leaves the element with its attributes and no children;
    it makes one removal per node below the element (elements and text),
    and removes each node only once it has no children itself. *)
Theorem clearInner_spec (e : option string) (c : list string) (cs : list node) :
  fst (clearInner (NElem e c cs)) = NElem e c [] /\
  length (snd (clearInner (NElem e c cs))) = count_children cs /\
  forall x, In x (snd (clearInner (NElem e c cs))) -> child_nodes x = [].
Proof.
  simpl. split; [reflexivity|].
  induction cs as [|a r IHr]; simpl; [split; [reflexivity|intros _ []]|].
  destruct (clearNode_props a) as [Ha1 Ha2]. destruct IHr as [Hr1 Hr2].
  rewrite length_app, Ha1, Hr1. split; [reflexivity|].
  intros x Hx. apply in_app_or in Hx. destruct Hx; auto.
Qed.

Lemma findInputByLabel_sound_witness :
  findInputByLabel "From" page_form = Some {| in_id := "from"; in_value := ""; in_checked := false |} /\
  exists l, In l (d_labels page_form) /\ lb_for l = Some "from"%string.
Proof.
  split; [reflexivity|].
  destruct (findInputByLabel_sound "From" page_form
              {| in_id := "from"; in_value := ""; in_checked := false |} eq_refl)
    as (l & Hin & Hf & _).
  exists l. split; assumption.
Defined.

Lemma findInputByLabel_exact_first_witness :
  findInputByLabel "From" page_two_from = getElementById "from" page_two_from /\
  findInputByLabel "From" page_two_from = Some {| in_id := "from"; in_value := ""; in_checked := false |}.
Proof.
  split.
  - apply (findInputByLabel_exact_first "From" page_two_from
             [{| lb_text := "From address"; lb_for := Some "addr"%string |}]
             {| lb_text := " From "; lb_for := Some "from"%string |} []);
      [reflexivity|reflexivity|].
    intros l' [<-|[]]. vm_compute. discriminate.
  - reflexivity.
Defined.

Lemma handleAutoLabelClick_reports_witness :
  extractSenderFromElement chain_jane = Some "jane@example.com"%string /\
  trim "Work" <> EmptyString /\
  exists r w2 w1,
    @createOrUpdateFilter static_host "[auto-label]" "jane@example.com" (trim "Work")
      {| w_dom := w_dom world0; w_now := w_now world0;
         w_log := EvPrompt "jane@example.com" :: w_log world0 |} = (r, w2) /\
    @handleAutoLabelClick static_host "[auto-label]" (Some chain_jane) (Some "Work"%string) world0
      = (Ok tt, w1).
Proof.
  split; [reflexivity|]. split; [vm_compute; discriminate|].
  destruct (@handleAutoLabelClick_reports static_host "[auto-label]" chain_jane
              "jane@example.com" "Work" world0 eq_refl ltac:(vm_compute; discriminate))
    as (r & w2 & w1 & E1 & E2 & _).
  exists r, w2, w1. split; assumption.
Defined.
